(** * SDSS-ImageExtract: the batch downloader of [download_sdss_images.py]

    A shallow embedding of the script's functions ([chunks], [fetch_url],
    [multiobject_download] and the main loop) together with the properties
    of its specification.

    Conventions of the embedding.
    - Python lists are Rocq lists, Python [str] values are [string]s.
    - An exception that the script does not catch is the [Raise] of a
      [result] (an error monad, written with stdpp's bind notation).
    - The outside world is explicit: the network is an oracle that answers
      the successive GET requests of one fetch, the random generator is an
      integer of entropy, the file system is a finite map from paths to
      contents together with the set of files that are currently open.
    - The first part has the script in a world where [open] succeeds and
      every body is read to its end ([fetch_url], [multiobject_download],
      [main]). The part "Failures after the answer" has the same code with
      the exceptions of these two steps ([fetch_url_io],
      [multiobject_download_io], [main_io]) and shows that it is the first
      part when there are none. *)

From Stdlib Require Import ZArith QArith Lia.
From Stdlib Require Import Ascii.
From stdpp Require Import gmap strings list pretty sorting.

Local Open Scope nat_scope.

(** ** Uncaught exceptions

    A computation either returns a value or raises. [OutOfFuel] is not a
    Python exception: it is the answer of a loop of the model whose
    iteration budget is spent (shown below never to happen). *)

Inductive exn := ValueError | IndexError | OutOfFuel.

Inductive result (A : Type) : Type :=
  | Ok (a : A)
  | Raise (e : exn).
Arguments Ok {A} a.
Arguments Raise {A} e.

#[global] Instance result_ret : MRet result := fun A a => Ok a.
#[global] Instance result_bind : MBind result := fun A B f m =>
  match m with
  | Ok a => f a
  | Raise e => Raise e
  end.

(** ** [chunks]: successive n-sized slices of a list *)

(** Python's [range(start, stop, step)] for a positive step, unrolled as the
    loop it denotes: [i = start; while i < stop: yield i; i += step]. *)
Fixpoint range_from (fuel i stop step : nat) : list nat :=
  match fuel with
  | 0 => []
  | S fuel' =>
      if i <? stop then i :: range_from fuel' (i + step) stop step else []
  end.

(** [range(0, stop, step)]; a zero step raises [ValueError]. Every index
    that is produced is below [stop], so [stop] iterations are enough. *)
Definition range (stop step : nat) : result (list nat) :=
  if step =? 0 then Raise ValueError else Ok (range_from stop 0 stop step).

(** The slice [lst[i:j]]: bounds beyond the end of the list are clamped. *)
Definition slice {A} (lst : list A) (i j : nat) : list A :=
  take (j - i) (drop i lst).

(** [list(chunks(lst, n))]. *)
Definition chunks {A} (lst : list A) (n : nat) : result (list (list A)) :=
  idx ← range (length lst) n;
  Ok (map (fun i => slice lst i (i + n)) idx).

(** ** Strings and paths *)

(** [os.path.basename]: what follows the last slash. *)
Fixpoint basename_go (acc p : string) : string :=
  match p with
  | EmptyString => acc
  | String c p' =>
      if Ascii.eqb c "/"%char then basename_go "" p'
      else basename_go (acc +:+ String c "") p'
  end.
Definition basename (p : string) : string := basename_go "" p.

(** [s.rstrip(chars)]: drops the longest suffix made of characters of
    [chars] (a set of characters, not a suffix string). *)
Fixpoint rstrip (chars : list ascii) (s : string) : string :=
  match s with
  | EmptyString => ""
  | String c s' =>
      match rstrip chars s' with
      | EmptyString => if bool_decide (c ∈ chars) then "" else String c ""
      | t => String c t
      end
  end.

Definition starts_with_sep (s : string) : bool :=
  match s with
  | String c _ => Ascii.eqb c "/"%char
  | EmptyString => false
  end.

Fixpoint ends_with_sep (s : string) : bool :=
  match s with
  | EmptyString => false
  | String c EmptyString => Ascii.eqb c "/"%char
  | String _ s' => ends_with_sep s'
  end.

(** [os.path.join(a, b)] of [posixpath]. *)
Definition path_join (a b : string) : string :=
  if starts_with_sep b then b
  else if String.eqb a "" || ends_with_sep a then a +:+ b
  else a +:+ "/" +:+ b.

(** The f-string [f"{counter}.jpeg"]. *)
Definition jpeg_name (counter : nat) : string := pretty counter +:+ ".jpeg".

(** ** The outside world *)

(** What one [requests.get] gives: an exception, or a response with its
    status code and the chunks that iterating over it yields. Here the
    iteration reaches the end of the body; a body that breaks off is an
    [io_response] below. *)
Inductive response :=
  | TransportError (e : string)
  | Response (status_code : Z) (chunks : list string).

(** The remote service as seen by one fetch: the answer to its GET number
    [k] (counted from 0), which may depend on the locator and on the
    timeout of the request. *)
Definition server := nat -> string -> Z -> response.

(** Files: contents by path, and the paths that are open for writing. *)
Record filesystem := Filesystem {
  contents : gmap string string;
  opened : gset string
}.

(** [open(path, 'wb')] truncates, [f.write] appends, leaving the [with]
    block closes. An [open] that raises is the [open_error] of
    [fetch_loop_io] below. *)
Definition fs_open (path : string) (fs : filesystem) : filesystem :=
  Filesystem (<[path := ""]> (contents fs)) ({[path]} ∪ opened fs).
Definition fs_write (path chunk : string) (fs : filesystem) : filesystem :=
  Filesystem (alter (fun s => s +:+ chunk) path (contents fs)) (opened fs).
Definition fs_close (path : string) (fs : filesystem) : filesystem :=
  Filesystem (contents fs) (opened fs ∖ {[path]}).

(** [with open(path, 'wb') as f: for chunk in r: f.write(chunk)] *)
Definition write_body (path : string) (body : list string) (fs : filesystem)
  : filesystem :=
  fs_close path (foldl (fun fs chunk => fs_write path chunk fs) (fs_open path fs) body).

(** [random.randint(a, b)]: an integer N with a <= N <= b, drawn here from
    an integer of entropy. *)
Definition randint (a b entropy : Z) : Z := (a + entropy mod (b - a + 1))%Z.

(** What a fetch does that can be observed from outside. *)
Inductive event :=
  | Sleep (seconds : Q)
  | Get (uri : string) (timeout : Z)
  | PrintExn (e : string)
  | WarnTimeout (count tries : nat) (timeout : Z)
  | WarnStatus (status_code : Z) (count tries : nat).

(** ** [fetch_url] *)

(** The loop [while not downloaded and count < tries] of [fetch_url], with
    the state it updates: [downloaded], [count], [timeout] and the files.
    It gives the events in the order they happen, the files, and the value
    that [fetch_url] returns ([None] is Python's [None]). The timeout is a
    number of seconds: the script starts from [float(180)], and doubling a
    binary float is exact, so that integers lose nothing here. In the 200
    branch the file opens and the body comes whole; [fetch_loop_io] below
    has the branch with its exceptions. *)
Fixpoint fetch_loop (fuel : nat) (srv : server) (uri path : string)
    (tries : nat) (downloaded : bool) (count : nat) (timeout : Z)
    (fs : filesystem) : result (list event * filesystem * option string) :=
  match fuel with
  | 0 => Raise OutOfFuel
  | S fuel' =>
      if negb downloaded && (count <? tries) then
        match srv count uri timeout with
        | TransportError e =>
            let count' := count + 1 in
            let timeout' := (timeout * 2)%Z in
            '(evs, fs', ret) ←
              fetch_loop fuel' srv uri path tries downloaded count' timeout' fs;
            Ok (Get uri timeout :: PrintExn e
                  :: WarnTimeout count' tries timeout' :: evs, fs', ret)
        | Response status_code body =>
            if (status_code =? 200)%Z then
              Ok ([Get uri timeout], write_body path body fs, Some path)
            else
              let count' := count + 1 in
              let downloaded' := false in
              '(evs, fs', ret) ←
                fetch_loop fuel' srv uri path tries downloaded' count' timeout fs;
              Ok (Get uri timeout :: WarnStatus status_code count' tries :: evs,
                  fs', ret)
        end
      else Ok ([], fs, None)
  end.

(** [random.randint(1, 101) / 20.], in seconds. *)
Definition jitter (entropy : Z) : Q := (inject_Z (randint 1 101 entropy) / 20)%Q.

(** [fetch_url(entry)], with the global [gtimeout] and the entropy of its
    [random.randint] made explicit. The guard of the loop is evaluated at
    most [tries + 1] times, which is the budget given to [fetch_loop]. *)
Definition fetch_url (gtimeout : Z) (entropy : Z) (srv : server)
    (fs : filesystem) (entry : string * string)
  : result (list event * filesystem * option string) :=
  let downloaded := false in
  let tries := 5 in
  let count := 0 in
  let '(uri, path) := entry in
  let timeout := gtimeout in
  let randSleep := jitter entropy in
  '(evs, fs', ret) ←
    fetch_loop (S tries) srv uri path tries downloaded count timeout fs;
  Ok (Sleep randSleep :: evs, fs', ret).

(** ** [multiobject_download] *)

(** Lines of the standard output that the properties speak about. *)
Inductive printed :=
  | PrintSkipped
  | PrintProgress (done total : nat) (percent : Q).

(** [for i, url in enumerate(urlList)]: pairs each locator with
    [os.path.join(downloadDirectory, filenames[i])]; [filenames[i]] raises
    [IndexError] beyond the end of [filenames]. *)
Fixpoint pair_entries (i : nat) (urlList : list string)
    (downloadDirectory : string) (filenames : list string)
  : result (list (string * string)) :=
  match urlList with
  | [] => Ok []
  | url :: urlList' =>
      match filenames !! i with
      | None => Raise IndexError
      | Some filename =>
          let localFilepath := path_join downloadDirectory filename in
          thisArray ← pair_entries (S i) urlList' downloadDirectory filenames;
          Ok ((url, localFilepath) :: thisArray)
      end
  end.

(** One call of [fetch_url] as the pool ran it: its argument, what it did
    and what it returned. *)
Record call := Call {
  entry_uri : string;
  entry_path : string;
  events : list event;
  returned : option string
}.

(** [executor.map(fetch_url, thisArray)] followed by the end of the [with]
    block, which waits for every call. The workers share nothing but the
    file system, where each writes its own destination; the model runs the
    calls one after the other in the order of submission, which is also the
    order of the results. Call number [i] has its own entropy and its own
    view of the remote service. *)
Fixpoint executor_map (gtimeout : Z) (entropy : nat -> Z) (net : nat -> server)
    (i : nat) (fs : filesystem) (thisArray : list (string * string))
  : result (list call * filesystem) :=
  match thisArray with
  | [] => Ok ([], fs)
  | entry :: thisArray' =>
      '(evs, fs1, ret) ← fetch_url gtimeout (entropy i) (net i) fs entry;
      '(calls, fs2) ← executor_map gtimeout entropy net (S i) fs1 thisArray';
      Ok (Call entry.1 entry.2 evs ret :: calls, fs2)
  end.

(** One turn of [for path in results]: the result is appended to
    [returnPaths] and a progress line is printed. *)
Definition progress_step (totalCount : nat)
    (st : list (option string) * list printed) (path : option string)
  : list (option string) * list printed :=
  let returnPaths := st.1 ++ [path] in
  let percent :=
    (inject_Z (Z.of_nat (length returnPaths))
       / inject_Z (Z.of_nat totalCount) * 100)%Q in
  (returnPaths, st.2 ++ [PrintProgress (length returnPaths) totalCount percent]).

(** What a call of [multiobject_download] leaves behind. *)
Record download := Download {
  traffic : list call;
  progress : list printed;
  files : filesystem;
  localPaths : list string
}.

(** [float(n)] for an integer [n]: the nearest number with 53 significant
    bits, ties going to the even one; up to 2^53 in magnitude it is the
    integer itself. The result is again written as an integer. (Python
    refuses integers that exceed the range of a double, from 2^1024 on; the
    timeouts of the model are taken below.) *)
Definition float_of_int (n : Z) : Z :=
  let m := Z.abs n in
  let e := (Z.log2 m - 52)%Z in
  if (e <=? 0)%Z then n
  else
    let q := (m / 2 ^ e)%Z in
    let r := (m mod 2 ^ e)%Z in
    let half := (2 ^ (e - 1))%Z in
    let q' := if (r <? half)%Z then q
              else if (half <? r)%Z then (q + 1)%Z
              else if Z.even q then q else (q + 1)%Z in
    (Z.sgn n * (q' * 2 ^ e))%Z.

(** [multiobject_download(urlList, downloadDirectory, log, filenames,
    timeout)] for a [downloadDirectory] that is a string and a [timeout]
    that is an integer, as in the script. *)
Definition multiobject_download (entropy : nat -> Z) (net : nat -> server)
    (fs : filesystem) (urlList : list string) (downloadDirectory : string)
    (filenames : list string) (timeout : Z) : result download :=
  let gtimeout := float_of_int timeout in
  let totalCount := length urlList in
  thisArray ← pair_entries 0 urlList downloadDirectory filenames;
  '(calls, fs') ← executor_map gtimeout entropy net 0 fs thisArray;
  let results := map returned calls in
  let '(returnPaths, out) := foldl (progress_step totalCount) ([], []) results in
  let localPaths :=
    map snd (filter (fun o => Some o.2 ∈ returnPaths) thisArray) in
  Ok (Download calls out fs' localPaths).

(** ** The main loop *)

(** The characters of [".jpeg"], the argument of [rstrip]. *)
Definition jpeg_chars : list ascii := ["."; "j"; "p"; "e"; "g"]%char.

(** [retrieved_ids]: the result of [pd.read_csv(download_list, ...)] is
    [None] when the call raises (no ledger yet: a fresh job) and otherwise
    the column of paths, where a cell that is not a string is [None]. *)
Definition load_retrieved_ids (read_csv : option (list (option string)))
  : list string :=
  match read_csv with
  | None => []
  | Some paths =>
      omap (fun x => (fun s => rstrip jpeg_chars (basename s)) <$> x) paths
  end.

Section Main.

(** The cells of the input table, Python's [str] on them, and
    [get_SDSS_url], whose [None] stands for a raised exception (the
    script catches whatever it raises). *)
Context {value : Type}.
Variable str : value -> string.
Variable get_SDSS_url : value -> value -> option string.

(** The variables that the loop over the rows of a batch updates. *)
Record queue := Queue {
  counter : nat;
  objids : list string;
  allUrls : list string;
  url_notfound : list string;
  stdout : list printed
}.

(** The body of [for row in batch]. *)
Definition enqueue_row (retrieved_ids : list string) (q : queue)
    (row : value * value * value) : queue :=
  let '(RA, DEC, oid) := row in
  if bool_decide (str oid ∈ retrieved_ids) then
    Queue (counter q) (objids q) (allUrls q) (url_notfound q)
          (stdout q ++ [PrintSkipped])
  else
    let objids' := objids q ++ [jpeg_name (counter q)] in
    let counter' := counter q + 1 in
    match get_SDSS_url RA DEC with
    | None =>
        Queue counter' objids' (allUrls q)
              (url_notfound q ++ [str RA +:+ "," +:+ str DEC +:+ " not found"])
              (stdout q)
    | Some url =>
        Queue counter' objids' (allUrls q ++ [url]) (url_notfound q) (stdout q)
    end.

(** The state that lives across the batches: the filename counter, the
    rows appended to [urlnotfound.csv] and to [downloaded.csv], the
    files, the standard output and the traffic of every fetch. *)
Record run := Run {
  run_counter : nat;
  run_notfound : list string;
  run_ledger : list string;
  run_files : filesystem;
  run_stdout : list printed;
  run_traffic : list call
}.

(** The queue of one batch, from the state before it. *)
Definition enqueue_batch (retrieved_ids : list string) (st : run)
    (batch : list (value * value * value)) : queue :=
  foldl (enqueue_row retrieved_ids)
        (Queue (run_counter st) [] [] (run_notfound st) (run_stdout st)) batch.

(** The body of [for batch in batches]. *)
Definition run_batch (downdir : string) (retrieved_ids : list string)
    (entropy : nat -> Z) (net : nat -> server) (st : run)
    (batch : list (value * value * value)) : result run :=
  let q := enqueue_batch retrieved_ids st batch in
  d ← multiobject_download entropy net (run_files st) (allUrls q) downdir
        (objids q) 180;
  Ok (Run (counter q) (url_notfound q) (run_ledger st ++ localPaths d)
          (files d) (stdout q ++ progress d) (run_traffic st ++ traffic d)).

Fixpoint run_batches (downdir : string) (retrieved_ids : list string)
    (entropy : nat -> nat -> Z) (net : nat -> nat -> server) (b : nat)
    (st : run) (batches : list (list (value * value * value))) : result run :=
  match batches with
  | [] => Ok st
  | batch :: batches' =>
      st' ← run_batch downdir retrieved_ids (entropy b) (net b) st batch;
      run_batches downdir retrieved_ids entropy net (S b) st' batches'
  end.

(** The script from the table that was read to the end: [args_o] is the
    output directory, [data] the rows of the three chosen columns,
    [read_csv] what reading the ledger gave; batch [b] has the entropy
    [entropy b] and the remote service [net b]. The result has the rows
    that this run appended to the two logs. *)
Definition main (args_o : string) (data : list (value * value * value))
    (read_csv : option (list (option string)))
    (entropy : nat -> nat -> Z) (net : nat -> nat -> server)
    (fs : filesystem) : result run :=
  let downdir := path_join args_o "panstamps" in
  let retrieved_ids := load_retrieved_ids read_csv in
  batches ← chunks data 10;
  let counter := 1 in
  run_batches downdir retrieved_ids entropy net 0
              (Run counter [] [] fs [] []) batches.

End Main.

(** ** Observations used by the properties *)

(** The timeouts of the successive GET requests of a trace. *)
Definition timeouts_of (evs : list event) : list Z :=
  omap (fun e => match e with Get _ timeout => Some timeout | _ => None end) evs.

(** The locators of the GET requests of a trace. *)
Definition locators_of (evs : list event) : list string :=
  omap (fun e => match e with Get uri _ => Some uri | _ => None end) evs.

Definition is_2xx (status_code : Z) : Prop := (200 <= status_code < 300)%Z.

(** The interval of the specification for the jitter: [0.05s, 5s). *)
Definition within_spec_jitter (q : Q) : Prop := (5 # 100 <= q)%Q /\ (q < 5)%Q.

(** The result type of the specification's fetcher,
    [destinationPath | FetchFailure], the failure carrying the locator and
    the destination of the item. *)
Inductive fetch_outcome :=
  | Delivered (destinationPath : string)
  | FetchFailure (locator destinationPath : string).

(** The percentage of the specification: items downloaded so far over the
    items of the run, times 100. *)
Definition spec_percent (downloaded total : nat) : Q :=
  (inject_Z (Z.of_nat downloaded) / inject_Z (Z.of_nat total) * 100)%Q.

(** The percentage that [multiobject_download] prints with its k-th line. *)
Definition batch_percent (k totalCount : nat) : Q :=
  (inject_Z (Z.of_nat k) / inject_Z (Z.of_nat totalCount) * 100)%Q.

(** The body of a response, its chunks put end to end. *)
Definition joined (body : list string) : string := foldr String.app "" body.

(** A fetch whose trace [evs] has used up the five attempts without any of
    them being answered by a 200. *)
Definition exhausted (srv : server) (uri : string) (evs : list event) : Prop :=
  length (timeouts_of evs) = 5
  /\ forall k t, timeouts_of evs !! k = Some t ->
                 forall body, srv k uri t <> Response 200 body.

(** Sample worlds: a service that always answers 404, one that answers 200
    after two transport failures, a flaky one that answers 200 after a 503,
    and an empty file system. *)
Definition always_404 : server := fun _ _ _ => Response 404 [].
Definition third_time_lucky : server := fun k _ _ =>
  if k <? 2 then TransportError "Read timed out." else Response 200 ["JF"; "IF"].
Definition busy_once : server := fun k _ _ =>
  if k <? 1 then Response 503 [] else Response 200 ["JFIF"].
Definition no_files : filesystem := Filesystem ∅ ∅.

(** The text that [get_SDSS_url] builds with its default [impix] and
    [imsize] (a scale of 60 / 256 arc seconds per pixel), for coordinates
    whose text needs no percent-encoding. *)
Definition cutoutbaseurl : string :=
  "http://skyservice.pha.jhu.edu/DR12/ImgCutout/getjpeg.aspx".
Definition SDSS_url_text (ra dec : string) : string :=
  cutoutbaseurl +:+ "?" +:+ "ra=" +:+ ra +:+ "&dec=" +:+ dec
    +:+ "&width=256&height=256&scale=0.234375".

(** A sample table has strings in its cells; its locator builder raises on
    the coordinate "nan". *)
Definition sample_locator (ra dec : string) : option string :=
  if String.eqb ra "nan" then None else Some (SDSS_url_text ra dec).

(** A call that returned either [None] or its own destination, and whose
    GET requests all went to its own locator. *)
Definition call_ok (c : call) : Prop :=
  (returned c = None \/ returned c = Some (entry_path c))
  /\ Forall (eq (entry_uri c)) (locators_of (events c)).

(** The progress lines of a call of [multiobject_download] that collects
    [n] results for [totalCount] locators. *)
Definition progress_lines (totalCount n : nat) : list printed :=
  map (fun k => PrintProgress k totalCount (batch_percent k totalCount)) (seq 1 n).

(** The services of the calls of a downloader call for [n] locators. *)
Definition batch_servers (net : nat -> server) (n : nat) : list server :=
  net <$> seq 0 n.

Section Observations.

Context {value : Type}.
Variable str : value -> string.
Variable get_SDSS_url : value -> value -> option string.

(** The rows that the ledger does not make the script skip. *)
Definition pending (retrieved_ids : list string)
    (rows : list (value * value * value)) : list (value * value * value) :=
  filter (fun row => str row.2 ∉ retrieved_ids) rows.

(** The locators of the rows for which one can be built, in order. *)
Definition locators (rows : list (value * value * value)) : list string :=
  omap (fun row => get_SDSS_url row.1.1 row.1.2) rows.

(** The lines of the failure log for the rows without a locator. *)
Definition notfound_lines (rows : list (value * value * value)) : list string :=
  omap (fun row =>
          match get_SDSS_url row.1.1 row.1.2 with
          | None => Some (str row.1.1 +:+ "," +:+ str row.1.2 +:+ " not found")
          | Some _ => None
          end) rows.

(** What processing [rows] adds to the state [st] of a run: the calls
    [calls] of [fetch_url], the k-th of them for the k-th locator of the
    pending rows and to the file named after the counter [cs !! k]. *)
Definition run_extends (downdir : string) (retrieved_ids : list string)
    (st : run) (rows : list (value * value * value)) (st' : run)
    (calls : list call) (cs : list nat) : Prop :=
  let todo := pending retrieved_ids rows in
  run_traffic st' = run_traffic st ++ calls
  /\ entry_uri <$> calls = locators todo
  /\ entry_path <$> calls
     = (fun counter => path_join downdir (jpeg_name counter)) <$> cs
  /\ StronglySorted lt cs
  /\ Forall (fun counter => run_counter st <= counter < run_counter st') cs
  /\ Forall call_ok calls
  /\ run_ledger st' = run_ledger st ++ omap returned calls
  /\ run_counter st' = run_counter st + length todo
  /\ run_notfound st' = run_notfound st ++ notfound_lines todo.

(** The services of the calls of a run, in the order of the calls: batch
    [b] has one call for each locator of its rows that are not skipped. *)
Fixpoint run_servers (retrieved_ids : list string) (net : nat -> nat -> server)
    (b : nat) (batches : list (list (value * value * value))) : list server :=
  match batches with
  | [] => []
  | batch :: batches' =>
      batch_servers (net b) (length (locators (pending retrieved_ids batch)))
        ++ run_servers retrieved_ids net (S b) batches'
  end.

End Observations.

(** ** The files of the output directory *)

(** The three paths that the script derives from [args.o]. *)
Definition download_list (args_o : string) : string :=
  path_join args_o "downloaded.csv".
Definition url_notfound_file (args_o : string) : string :=
  path_join args_o "urlnotfound.csv".
Definition downdir (args_o : string) : string := path_join args_o "panstamps".

(** ** Further observations *)


(** A property of every character of a string. *)
Fixpoint string_forall (P : ascii -> bool) (s : string) : bool :=
  match s with
  | EmptyString => true
  | String c s' => P c && string_forall P s'
  end.

Definition is_digit (c : ascii) : bool :=
  bool_decide (c ∈ ["0"; "1"; "2"; "3"; "4"; "5"; "6"; "7"; "8"; "9"]%char).
Definition not_sep (c : ascii) : bool := negb (Ascii.eqb c "/"%char).

(** The call was served by [srv]: when it returned its destination, its
    last request was answered by [srv] with a 200, and the destination
    holds the whole body of that answer. *)
Definition body_received (srv : server) (fs : filesystem) (c : call) : Prop :=
  returned c = Some (entry_path c) ->
  exists k t body,
    timeouts_of (events c) !! k = Some t
    /\ length (timeouts_of (events c)) = S k
    /\ srv k (entry_uri c) t = Response 200 body
    /\ contents fs !! entry_path c = Some (joined body).

(** The requests of a call: between one and five, the first with the base
    timeout, request [k] with the base timeout doubled at most [k] times. *)
Definition call_requests_ok (gtimeout : Z) (c : call) : Prop :=
  timeouts_of (events c) !! 0 = Some gtimeout
  /\ 1 <= length (timeouts_of (events c)) <= 5
  /\ forall k t,
       timeouts_of (events c) !! k = Some t ->
       exists j, j <= k /\ t = (gtimeout * 2 ^ Z.of_nat j)%Z.

(** The number of GET requests of a list of calls. *)
Definition request_count (calls : list call) : nat :=
  sum_list ((fun c => length (timeouts_of (events c))) <$> calls).

(** * Failures after the answer

    The definitions above describe the script where [open(path, 'wb')]
    and the reading of a body always succeed. In the script both stand
    outside the [try] of [fetch_url]: an exception there is not retried,
    it leaves [fetch_url]. The definitions below follow the same code with
    these exceptions in the world. A computation now ends by returning a
    value or by an exception that is thrown with the state reached so far
    ([Raise] keeps its meaning: [IndexError], [ValueError] and the budget
    of the loop). *)

Inductive outcome (A : Type) : Type :=
  | Returned (a : A)
  | Thrown (e : string).
Arguments Returned {A} a.
Arguments Thrown {A} e.

(** What one [requests.get(uri, stream=True, timeout=timeout)] gives. With
    [stream=True] the body is read while the response is iterated: the
    loop [for chunk in r: f.write(chunk)] writes [chunks] and then either
    is over ([broken = None]) or raises [e] ([broken = Some e]), whether
    the iteration or the write raised it. *)
Inductive io_response :=
  | IoTransportError (e : string)
  | IoResponse (status_code : Z) (chunks : list string) (broken : option string).

Definition io_server := nat -> string -> Z -> io_response.

(** [fetch_loop] with the exceptions of its 200 branch. [open_error path]
    is the exception that [open(path, 'wb')] raises, if it raises. The
    [with] block closes the file when the loop over the chunks raises, and
    the exception goes on: nothing in [fetch_url] catches it. *)
Fixpoint fetch_loop_io (fuel : nat) (open_error : string -> option string)
    (srv : io_server) (uri path : string) (tries : nat) (downloaded : bool)
    (count : nat) (timeout : Z) (fs : filesystem)
  : result (list event * filesystem * outcome (option string)) :=
  match fuel with
  | 0 => Raise OutOfFuel
  | S fuel' =>
      if negb downloaded && (count <? tries) then
        match srv count uri timeout with
        | IoTransportError e =>
            let count' := count + 1 in
            let timeout' := (timeout * 2)%Z in
            '(evs, fs', ret) ←
              fetch_loop_io fuel' open_error srv uri path tries downloaded
                            count' timeout' fs;
            Ok (Get uri timeout :: PrintExn e
                  :: WarnTimeout count' tries timeout' :: evs, fs', ret)
        | IoResponse status_code body broken =>
            if (status_code =? 200)%Z then
              match open_error path with
              | Some e => Ok ([Get uri timeout], fs, Thrown e)
              | None =>
                  let fs' := write_body path body fs in
                  match broken with
                  | Some e => Ok ([Get uri timeout], fs', Thrown e)
                  | None => Ok ([Get uri timeout], fs', Returned (Some path))
                  end
              end
            else
              let count' := count + 1 in
              let downloaded' := false in
              '(evs, fs', ret) ←
                fetch_loop_io fuel' open_error srv uri path tries downloaded'
                              count' timeout fs;
              Ok (Get uri timeout :: WarnStatus status_code count' tries :: evs,
                  fs', ret)
        end
      else Ok ([], fs, Returned None)
  end.

Definition fetch_url_io (gtimeout : Z) (entropy : Z)
    (open_error : string -> option string) (srv : io_server)
    (fs : filesystem) (entry : string * string)
  : result (list event * filesystem * outcome (option string)) :=
  let downloaded := false in
  let tries := 5 in
  let count := 0 in
  let '(uri, path) := entry in
  let timeout := gtimeout in
  let randSleep := jitter entropy in
  '(evs, fs', ret) ←
    fetch_loop_io (S tries) open_error srv uri path tries downloaded count
                  timeout fs;
  Ok (Sleep randSleep :: evs, fs', ret).

(** One call of [fetch_url] as the pool ran it, and how it ended. *)
Record io_call := IoCall {
  io_uri : string;
  io_path : string;
  io_events : list event;
  io_ended : outcome (option string)
}.

(** [executor.map(fetch_url, thisArray)] and the end of the [with] block:
    every entry is submitted at once and the pool is shut down waiting for
    all of them, so every call runs to its end whatever the others do; an
    exception of a call is kept with its result. *)
Fixpoint executor_map_io (gtimeout : Z) (entropy : nat -> Z)
    (open_error : string -> option string) (net : nat -> io_server)
    (i : nat) (fs : filesystem) (thisArray : list (string * string))
  : result (list io_call * filesystem) :=
  match thisArray with
  | [] => Ok ([], fs)
  | entry :: thisArray' =>
      '(evs, fs1, ret) ←
        fetch_url_io gtimeout (entropy i) open_error (net i) fs entry;
      '(calls, fs2) ←
        executor_map_io gtimeout entropy open_error net (S i) fs1 thisArray';
      Ok (IoCall entry.1 entry.2 evs ret :: calls, fs2)
  end.

(** [for path in results]: taking the result of a call that raised raises
    its exception again, here, and the loop is left with what it had
    collected and printed. *)
Fixpoint collect_results (totalCount : nat)
    (st : list (option string) * list printed)
    (results : list (outcome (option string)))
  : list (option string) * list printed * option string :=
  match results with
  | [] => (st, None)
  | Returned path :: results' =>
      collect_results totalCount (progress_step totalCount st path) results'
  | Thrown e :: _ => (st, Some e)
  end.

(** What a call of [multiobject_download] leaves behind, and the list it
    returns unless an exception leaves it. *)
Record io_download := IoDownload {
  io_traffic : list io_call;
  io_progress : list printed;
  io_files : filesystem;
  io_localPaths : outcome (list string)
}.

Definition multiobject_download_io (entropy : nat -> Z)
    (open_error : string -> option string) (net : nat -> io_server)
    (fs : filesystem) (urlList : list string) (downloadDirectory : string)
    (filenames : list string) (timeout : Z) : result io_download :=
  let gtimeout := float_of_int timeout in
  let totalCount := length urlList in
  thisArray ← pair_entries 0 urlList downloadDirectory filenames;
  '(calls, fs') ←
    executor_map_io gtimeout entropy open_error net 0 fs thisArray;
  let results := map io_ended calls in
  let '(returnPaths, out, thrown) :=
    collect_results totalCount ([], []) results in
  match thrown with
  | Some e => Ok (IoDownload calls out fs' (Thrown e))
  | None =>
      let localPaths :=
        map snd (filter (fun o => Some o.2 ∈ returnPaths) thisArray) in
      Ok (IoDownload calls out fs' (Returned localPaths))
  end.

Section MainIo.

Context {value : Type}.
Variable str : value -> string.
Variable get_SDSS_url : value -> value -> option string.

(** The state across the batches, and the exception that ended the run if
    one did. The two logs are lists of rows as before, taken to be
    writable. *)
Record io_run := IoRun {
  io_run_counter : nat;
  io_run_notfound : list string;
  io_run_ledger : list string;
  io_run_files : filesystem;
  io_run_stdout : list printed;
  io_run_traffic : list io_call;
  io_run_thrown : option string
}.

(** The body of [for batch in batches]. The rows are queued and the
    failure log is written before the downloader is called; when an
    exception leaves the downloader the script ends there, before the
    ledger is opened. *)
Definition run_batch_io (downdir : string) (retrieved_ids : list string)
    (entropy : nat -> Z) (open_error : string -> option string)
    (net : nat -> io_server) (st : io_run)
    (batch : list (value * value * value)) : result io_run :=
  let q := foldl (enqueue_row str get_SDSS_url retrieved_ids)
                 (Queue (io_run_counter st) [] [] (io_run_notfound st)
                        (io_run_stdout st)) batch in
  d ← multiobject_download_io entropy open_error net (io_run_files st)
        (allUrls q) downdir (objids q) 180;
  match io_localPaths d with
  | Returned localUrls =>
      Ok (IoRun (counter q) (url_notfound q) (io_run_ledger st ++ localUrls)
                (io_files d) (stdout q ++ io_progress d)
                (io_run_traffic st ++ io_traffic d) None)
  | Thrown e =>
      Ok (IoRun (counter q) (url_notfound q) (io_run_ledger st)
                (io_files d) (stdout q ++ io_progress d)
                (io_run_traffic st ++ io_traffic d) (Some e))
  end.

Fixpoint run_batches_io (downdir : string) (retrieved_ids : list string)
    (entropy : nat -> nat -> Z) (open_error : string -> option string)
    (net : nat -> nat -> io_server) (b : nat) (st : io_run)
    (batches : list (list (value * value * value))) : result io_run :=
  match batches with
  | [] => Ok st
  | batch :: batches' =>
      st' ← run_batch_io downdir retrieved_ids (entropy b) open_error (net b)
              st batch;
      match io_run_thrown st' with
      | Some _ => Ok st'
      | None =>
          run_batches_io downdir retrieved_ids entropy open_error net (S b)
                         st' batches'
      end
  end.

Definition main_io (args_o : string) (data : list (value * value * value))
    (read_csv : option (list (option string)))
    (entropy : nat -> nat -> Z) (open_error : string -> option string)
    (net : nat -> nat -> io_server) (fs : filesystem) : result io_run :=
  let downdir := path_join args_o "panstamps" in
  let retrieved_ids := load_retrieved_ids read_csv in
  batches ← chunks data 10;
  let counter := 1 in
  run_batches_io downdir retrieved_ids entropy open_error net 0
                 (IoRun counter [] [] fs [] [] None) batches.

End MainIo.

(** The world of the first part inside this one: every file can be
    opened and every body is read to its end. *)
Definition always_opens : string -> option string := fun _ => None.
Definition complete (srv : server) : io_server := fun k uri timeout =>
  match srv k uri timeout with
  | TransportError e => IoTransportError e
  | Response status_code body => IoResponse status_code body None
  end.
Definition io_of_call (c : call) : io_call :=
  IoCall (entry_uri c) (entry_path c) (events c) (Returned (returned c)).
Definition io_of_download (d : download) : io_download :=
  IoDownload (io_of_call <$> traffic d) (progress d) (files d)
             (Returned (localPaths d)).
Definition io_of_run (st : run) : io_run :=
  IoRun (run_counter st) (run_notfound st) (run_ledger st) (run_files st)
        (run_stdout st) (io_of_call <$> run_traffic st) None.

(** The destinations that the calls of a run returned, in order. *)
Definition io_returned_paths (calls : list io_call) : list string :=
  omap (fun c => match io_ended c with
                 | Returned ret => ret
                 | Thrown _ => None
                 end) calls.

(** Sample worlds: a service whose 200 answer breaks off after the first
    chunk, and a table of twelve rows of which the third is served by it
    (the others by a service that answers at once). *)
Definition cut_off : io_server := fun _ _ _ =>
  IoResponse 200 ["JF"] (Some "Connection broken: IncompleteRead").
Definition at_once : io_server := fun _ _ _ => IoResponse 200 ["JFIF"] None.
Definition twelve_rows : list (string * string * string) :=
  map (fun n => (pretty n, "0", pretty (100 + n))) (seq 0 12).
Definition third_is_cut_off : nat -> nat -> io_server := fun b i =>
  if (b =? 0) && (i =? 2) then cut_off else at_once.

(** Two rows of a table with the object ids of the survey, and the
    ledger that [pd.read_csv] reads back from the rows that a run wrote. *)
Definition two_objects : list (string * string * string) :=
  [("10.5", "-1.25", "1237648720693755918");
   ("11.5", "0.5", "1237648720693755919")].
Definition read_back (ledger : list string) : option (list (option string)) :=
  Some (Some <$> ledger).

(** * Properties *)

(** ** Batching *)

Lemma range_from_chunks {A} (lst : list A) (n : nat) :
  0 < n ->
  forall fuel i,
    length lst <= i + fuel ->
    concat (map (fun i => slice lst i (i + n)) (range_from fuel i (length lst) n))
    = drop i lst.
Proof.
  intros Hn. induction fuel as [|fuel IH]; intros i Hi; simpl.
  - rewrite drop_ge by lia. reflexivity.
  - destruct (Nat.ltb_spec i (length lst)) as [Hlt|Hge].
    + simpl. rewrite IH by lia. unfold slice.
      replace (i + n - i) with n by lia.
      rewrite <- drop_drop. apply take_drop.
    + simpl. rewrite drop_ge by lia. reflexivity.
Qed.

Lemma range_from_full {A} (lst : list A) (n : nat) :
  0 < n ->
  forall fuel i,
    length lst <= i + fuel ->
    Forall (fun b : list A => 1 <= length b <= n)
           (map (fun i => slice lst i (i + n)) (range_from fuel i (length lst) n))
    /\ Forall (fun b : list A => length b = n)
           (removelast (map (fun i => slice lst i (i + n))
                            (range_from fuel i (length lst) n)))
    /\ length (range_from fuel i (length lst) n) * n < length lst - i + n
    /\ length lst - i <= length (range_from fuel i (length lst) n) * n.
Proof.
  intros Hn. induction fuel as [|fuel IH]; intros i Hi; simpl.
  - repeat split; try constructor; lia.
  - destruct (Nat.ltb_spec i (length lst)) as [Hlt|Hge].
    + destruct (IH (i + n)) as (Hall & Hfull & Hub & Hlb); [lia|].
      assert (Hlen : length (slice lst i (i + n)) = Nat.min n (length lst - i)).
      { unfold slice. rewrite length_take, length_drop. lia. }
      cbn [map length]. repeat split.
      * constructor; [lia|exact Hall].
      * destruct (range_from fuel (i + n) (length lst) n) as [|j js] eqn:Hr.
        { constructor. }
        assert (i + n < length lst).
        { destruct fuel; simpl in Hr; [discriminate|].
          destruct (Nat.ltb_spec (i + n) (length lst)); [lia|discriminate]. }
        cbn [map removelast]. cbn [map] in Hfull.
        destruct (map (fun i0 => slice lst i0 (i0 + n)) js) eqn:Hm.
        -- constructor; [lia|constructor].
        -- constructor; [lia|exact Hfull].
      * rewrite Nat.mul_succ_l.
        destruct (le_lt_dec (i + n) (length lst)); [lia|].
        assert (length (range_from fuel (i + n) (length lst) n) = 0) as ->
          by nia.
        lia.
      * rewrite Nat.mul_succ_l. lia.
    + simpl. repeat split; try constructor; lia.
Qed.

Lemma chunks_spec {A} (lst : list A) (n : nat) :
  0 < n ->
  exists batches,
    chunks lst n = Ok batches
    /\ concat batches = lst
    /\ Forall (fun b : list A => 1 <= length b <= n) batches
    /\ Forall (fun b : list A => length b = n) (removelast batches)
    /\ length batches = (length lst + (n - 1)) / n.
Proof.
  intros Hn. unfold chunks, range.
  destruct (Nat.eqb_spec n 0) as [->|_]; [lia|]. simpl.
  eexists. split; [reflexivity|].
  destruct (range_from_full lst n Hn (length lst) 0) as (Hall & Hfull & Hub & Hlb);
    [lia|].
  repeat split; try assumption.
  - rewrite (range_from_chunks lst n Hn) by lia. apply drop_0.
  - rewrite length_map.
    apply (Nat.div_unique _ _ _
             (length lst + (n - 1)
              - n * length (range_from (length lst) 0 (length lst) n))); lia.
Qed.

(** C8. [chunks(rows, 10)] always succeeds; its batches are the consecutive
    slices of the list: put end to end they give the list back, every batch
    but the last has exactly 10 items and the last has between 1 and 10, so
    there are ceil(n / 10) of them and 12 items give a batch of 10 followed
    by a batch of 2. *)
Theorem chunks_10_partition {A} (lst : list A) :
  exists batches,
    chunks lst 10 = Ok batches
    /\ concat batches = lst
    /\ Forall (fun b : list A => length b = 10) (removelast batches)
    /\ Forall (fun b : list A => 1 <= length b <= 10) batches
    /\ length batches = (length lst + 9) / 10
    /\ (length lst = 12 -> map length batches = [10; 2]).
Proof.
  destruct (chunks_spec lst 10) as (batches & Hc & Hcat & Hall & Hfull & Hlen);
    [lia|].
  exists batches. repeat split; try assumption.
  intros H12. do 13 (destruct lst as [|? lst]; try discriminate H12).
  vm_compute in Hc. injection Hc as <-. reflexivity.
Qed.

(** ** The retry loop *)

Lemma bind_ok {A B} (f : A -> result B) (a : A) : (Ok a ≫= f) = f a.
Proof. reflexivity. Qed.

(** Everything the loop guarantees, from any of its states. Attempt [k] of
    the remaining loop is attempt [count + k] of the fetch. *)
Lemma fetch_loop_spec (srv : server) (uri path : string) (tries : nat) :
  forall fuel count timeout fs,
    tries - count < fuel ->
    exists evs fs' ret,
      fetch_loop fuel srv uri path tries false count timeout fs = Ok (evs, fs', ret)
      /\ length (timeouts_of evs) <= tries - count
      /\ (ret = None -> length (timeouts_of evs) = tries - count /\ fs' = fs)
      /\ (forall p, ret = Some p -> p = path)
      /\ (count < tries -> timeouts_of evs !! 0 = Some timeout)
      /\ Forall (eq uri) (locators_of evs)
      /\ Forall (fun e => forall q, e <> Sleep q) evs
      /\ (forall p, ret = Some p ->
          exists k t body,
            timeouts_of evs !! k = Some t
            /\ srv (count + k) uri t = Response 200 body)
      /\ (forall k t,
            timeouts_of evs !! k = Some t ->
            match srv (count + k) uri t with
            | TransportError e =>
                WarnTimeout (count + k + 1) tries (t * 2) ∈ evs
                /\ (count + k + 1 < tries ->
                    timeouts_of evs !! S k = Some (t * 2)%Z)
            | Response status_code body =>
                if (status_code =? 200)%Z then
                  length (timeouts_of evs) = S k
                  /\ ret = Some path /\ fs' = write_body path body fs
                else
                  WarnStatus status_code (count + k + 1) tries ∈ evs
                  /\ (count + k + 1 < tries -> timeouts_of evs !! S k = Some t)
            end).
Proof.
  induction fuel as [|fuel IH]; intros count timeout fs Hfuel; [lia|].
  cbn [fetch_loop negb andb].
  destruct (Nat.ltb_spec count tries) as [Hlt|Hge].
  - destruct (srv count uri timeout) as [e|status_code body] eqn:Hsrv.
    + destruct (IH (count + 1) (timeout * 2)%Z fs)
        as (evs & fs' & ret & -> & Hlen & Hnone & Hsome & Hhd & Hloc & Hns
            & Hwin & Hstep);
        [lia|].
      rewrite bind_ok. cbn beta iota.
      eexists _, _, _. split; [reflexivity|].
      cbn [timeouts_of locators_of omap]. fold (timeouts_of evs) (locators_of evs).
      repeat split.
      * simpl. lia.
      * simpl. destruct (Hnone H). lia.
      * apply Hnone, H.
      * exact Hsome.
      * constructor; [reflexivity|exact Hloc].
      * repeat (constructor; [discriminate|]). exact Hns.
      * intros p Hp. destruct (Hwin p Hp) as (k & t & body & Hk & Hr).
        exists (S k), t, body. split; [exact Hk|].
        replace (count + S k) with (count + 1 + k) by lia. exact Hr.
      * intros [|k] t Hk.
        -- injection Hk as <-. rewrite Nat.add_0_r, Hsrv. split.
           ++ do 2 right. left.
           ++ intros Hc. apply Hhd. lia.
        -- specialize (Hstep k t Hk).
           replace (count + S k) with (count + 1 + k) by lia.
           destruct (srv (count + 1 + k) uri t) as [e'|c' body'].
           ++ destruct Hstep as [Hin Hnext]. split; [do 3 right; exact Hin|].
              exact Hnext.
           ++ destruct (c' =? 200)%Z.
              ** destruct Hstep as (Hl & ? & ?). simpl. repeat split; auto.
              ** destruct Hstep as [Hin Hnext]. split; [do 3 right; exact Hin|].
                 exact Hnext.
    + destruct (Z.eqb_spec status_code 200) as [->|Hne].
      * eexists _, _, _. split; [reflexivity|].
        cbn [timeouts_of locators_of omap]. repeat split.
        -- simpl. lia.
        -- discriminate.
        -- discriminate.
        -- congruence.
        -- constructor; [reflexivity|constructor].
        -- repeat (constructor; [discriminate|]). constructor.
        -- intros p _. exists 0, timeout, body. rewrite Nat.add_0_r. auto.
        -- intros [|k] t Hk; [|discriminate Hk].
           injection Hk as <-. rewrite Nat.add_0_r, Hsrv. simpl. auto.
      * destruct (IH (count + 1) timeout fs)
          as (evs & fs' & ret & -> & Hlen & Hnone & Hsome & Hhd & Hloc & Hns
              & Hwin & Hstep);
          [lia|].
        rewrite bind_ok. cbn beta iota.
        eexists _, _, _. split; [reflexivity|].
        cbn [timeouts_of locators_of omap].
        fold (timeouts_of evs) (locators_of evs).
        repeat split.
        -- simpl. lia.
        -- simpl. destruct (Hnone H). lia.
        -- apply Hnone, H.
        -- exact Hsome.
        -- constructor; [reflexivity|exact Hloc].
        -- repeat (constructor; [discriminate|]). exact Hns.
        -- intros p Hp. destruct (Hwin p Hp) as (k & t & body' & Hk & Hr).
           exists (S k), t, body'. split; [exact Hk|].
           replace (count + S k) with (count + 1 + k) by lia. exact Hr.
        -- intros [|k] t Hk.
           ++ injection Hk as <-. rewrite Nat.add_0_r, Hsrv.
              destruct (Z.eqb_spec status_code 200); [contradiction|]. split.
              ** right. left.
              ** intros Hc. apply Hhd. lia.
           ++ specialize (Hstep k t Hk).
              replace (count + S k) with (count + 1 + k) by lia.
              destruct (srv (count + 1 + k) uri t) as [e'|c' body'].
              ** destruct Hstep as [Hin Hnext].
                 split; [do 2 right; exact Hin|]. exact Hnext.
              ** destruct (c' =? 200)%Z.
                 --- destruct Hstep as (Hl & ? & ?). simpl. repeat split; auto.
                 --- destruct Hstep as [Hin Hnext].
                     split; [do 2 right; exact Hin|]. exact Hnext.
  - eexists _, _, _. split; [reflexivity|].
    repeat split; try (simpl; lia); try discriminate; try constructor.
Qed.

(** ** Writing the body *)

Lemma string_app_assoc (a b c : string) : (a +:+ b) +:+ c = a +:+ b +:+ c.
Proof.
  induction a as [|x a IH]; [reflexivity|].
  change (String x ((a +:+ b) +:+ c) = String x (a +:+ b +:+ c)).
  now rewrite IH.
Qed.

Lemma string_app_nil_r (a : string) : a +:+ "" = a.
Proof.
  induction a as [|x a IH]; [reflexivity|].
  change (String x (a +:+ "") = String x a). now rewrite IH.
Qed.

Lemma write_chunks path body : forall fs acc,
  contents fs !! path = Some acc ->
  contents (foldl (fun fs chunk => fs_write path chunk fs) fs body) !! path
  = Some (acc +:+ joined body)
  /\ opened (foldl (fun fs chunk => fs_write path chunk fs) fs body) = opened fs
  /\ forall q, q <> path ->
       contents (foldl (fun fs chunk => fs_write path chunk fs) fs body) !! q
       = contents fs !! q.
Proof.
  induction body as [|chunk body IH]; intros fs acc Hacc; cbn [foldl joined foldr].
  - split; [|auto]. rewrite Hacc, string_app_nil_r. reflexivity.
  - destruct (IH (fs_write path chunk fs) (acc +:+ chunk)) as (Hc & Ho & Hq).
    { cbn. rewrite lookup_alter_eq, Hacc. reflexivity. }
    fold (joined body). rewrite Hc, Ho, string_app_assoc.
    split; [reflexivity|]. split; [reflexivity|].
    intros q Hne. rewrite Hq by exact Hne. cbn.
    apply lookup_alter_ne. congruence.
Qed.

(** The [with] block leaves the whole body in the destination, closes the
    file and touches no other file. *)
Lemma write_body_spec path body fs :
  contents (write_body path body fs) !! path = Some (joined body)
  /\ (path ∉ opened (write_body path body fs))
  /\ (forall q, q <> path ->
       contents (write_body path body fs) !! q = contents fs !! q).
Proof.
  unfold write_body.
  destruct (write_chunks path body (fs_open path fs) "") as (Hc & Ho & Hq).
  { cbn. apply lookup_insert_eq. }
  cbn [fs_close contents opened]. split; [exact Hc|]. split.
  - rewrite elem_of_difference, elem_of_singleton. tauto.
  - intros q Hne. rewrite Hq by exact Hne. cbn.
    apply lookup_insert_ne. congruence.
Qed.

(** ** One fetch *)

Lemma fetch_url_spec gtimeout entropy (srv : server) fs uri path :
  exists evs fs' ret,
    fetch_url gtimeout entropy srv fs (uri, path)
    = Ok (Sleep (jitter entropy) :: evs, fs', ret)
    /\ fetch_loop 6 srv uri path 5 false 0 gtimeout fs = Ok (evs, fs', ret).
Proof.
  destruct (fetch_loop_spec srv uri path 5 6 0 gtimeout fs) as (evs & fs' & ret & H & _);
    [lia|].
  exists evs, fs', ret. split; [|exact H].
  unfold fetch_url. rewrite H. reflexivity.
Qed.

(** C2. Whatever the remote service does, a fetch makes its first GET
    request with the base timeout and returns after at least one and at
    most five requests, all to its own locator; it returns its destination
    or [None], and a fetch that fails has made exactly five. When
    request [k] raises, the attempt count is incremented (the warning shows
    [k + 1] of 5) and the next request, if there is one, has exactly twice
    the timeout of request [k], hence at least its double. *)
Theorem fetch_url_transport_backoff gtimeout entropy (srv : server) fs uri path :
  exists evs fs' ret,
    fetch_url gtimeout entropy srv fs (uri, path) = Ok (evs, fs', ret)
    /\ timeouts_of evs !! 0 = Some gtimeout
    /\ 1 <= length (timeouts_of evs) <= 5
    /\ Forall (eq uri) (locators_of evs)
    /\ (ret = None \/ ret = Some path)
    /\ (ret = None -> length (timeouts_of evs) = 5)
    /\ (forall k t e,
          timeouts_of evs !! k = Some t ->
          srv k uri t = TransportError e ->
          WarnTimeout (k + 1) 5 (t * 2) ∈ evs
          /\ (k + 1 < 5 ->
              exists t', timeouts_of evs !! S k = Some t'
                         /\ t' = (t * 2)%Z /\ (2 * t <= t')%Z)).
Proof.
  destruct (fetch_url_spec gtimeout entropy srv fs uri path)
    as (evs & fs' & ret & Hf & Hl).
  destruct (fetch_loop_spec srv uri path 5 6 0 gtimeout fs)
    as (evs0 & fs0 & ret0 & Hl0 & Hlen & Hnone & Hsome & Hhd & Hloc & _ & _
        & Hstep);
    [lia|].
  rewrite Hl in Hl0. injection Hl0 as <- <- <-.
  exists (Sleep (jitter entropy) :: evs), fs', ret.
  change (timeouts_of (Sleep (jitter entropy) :: evs)) with (timeouts_of evs).
  change (locators_of (Sleep (jitter entropy) :: evs)) with (locators_of evs).
  assert (H0 : timeouts_of evs !! 0 = Some gtimeout) by (apply Hhd; lia).
  split; [exact Hf|]. split; [exact H0|]. split.
  { apply lookup_lt_Some in H0. lia. }
  split; [exact Hloc|]. split.
  { destruct ret as [p|]; [right|left; reflexivity].
    rewrite (Hsome p eq_refl). reflexivity. }
  split.
  - intros Hr. destruct (Hnone Hr). lia.
  - intros k t e Hk Hsrv. specialize (Hstep k t Hk). cbn in Hstep.
    rewrite Hsrv in Hstep. destruct Hstep as [Hin Hnext]. split.
    + right. exact Hin.
    + intros Hlt. exists (t * 2)%Z. split; [auto|]. split; [reflexivity|lia].
Qed.

(** Any status other than 200 leads to the next attempt with the same
    timeout. *)
Lemma fetch_url_not_200 gtimeout entropy (srv : server) fs uri path :
  exists evs fs' ret,
    fetch_url gtimeout entropy srv fs (uri, path) = Ok (evs, fs', ret)
    /\ (forall k t status_code body,
          timeouts_of evs !! k = Some t ->
          srv k uri t = Response status_code body ->
          (status_code <> 200%Z ->
           WarnStatus status_code (k + 1) 5 ∈ evs
           /\ (k + 1 < 5 -> timeouts_of evs !! S k = Some t))
          /\ (status_code = 200%Z ->
              length (timeouts_of evs) = S k
              /\ ret = Some path /\ fs' = write_body path body fs)).
Proof.
  destruct (fetch_url_spec gtimeout entropy srv fs uri path)
    as (evs & fs' & ret & Hf & Hl).
  destruct (fetch_loop_spec srv uri path 5 6 0 gtimeout fs)
    as (evs0 & fs0 & ret0 & Hl0 & _ & _ & _ & _ & _ & _ & _ & Hstep);
    [lia|].
  rewrite Hl in Hl0. injection Hl0 as <- <- <-.
  exists (Sleep (jitter entropy) :: evs), fs', ret.
  change (timeouts_of (Sleep (jitter entropy) :: evs)) with (timeouts_of evs).
  split; [exact Hf|].
  intros k t c body Hk Hsrv. specialize (Hstep k t Hk). cbn in Hstep.
  rewrite Hsrv in Hstep. destruct (Z.eqb_spec c 200) as [->|Hne].
  - split; [congruence|]. intros _. exact Hstep.
  - split; [|congruence]. intros _. destruct Hstep as [Hin Hnext].
    split; [right; exact Hin|exact Hnext].
Qed.

(** Where the file opens and the body is read to its end: when request
    [k] is answered with a status that is not 2xx, the attempt count is
    incremented (the warning shows [k + 1] of 5) and the next request, if
    there is one, has the same timeout. When it is answered with 200, it
    is the last request: the destination holds the whole body, the file is
    closed again, and the fetch returns the destination path. *)
Lemma fetch_url_status gtimeout entropy (srv : server) fs uri path :
  exists evs fs' ret,
    fetch_url gtimeout entropy srv fs (uri, path) = Ok (evs, fs', ret)
    /\ (forall k t status_code body,
          timeouts_of evs !! k = Some t ->
          srv k uri t = Response status_code body ->
          (~ is_2xx status_code ->
           WarnStatus status_code (k + 1) 5 ∈ evs
           /\ (k + 1 < 5 -> timeouts_of evs !! S k = Some t))
          /\ (status_code = 200%Z ->
              length (timeouts_of evs) = S k
              /\ ret = Some path
              /\ fs' = write_body path body fs
              /\ contents fs' !! path = Some (joined body)
              /\ (path ∉ opened fs'))).
Proof.
  destruct (fetch_url_not_200 gtimeout entropy srv fs uri path)
    as (evs & fs' & ret & Hf & H).
  exists evs, fs', ret. split; [exact Hf|].
  intros k t c body Hk Hsrv. destruct (H k t c body Hk Hsrv) as [Hretry Hok].
  split.
  - intros Hc. apply Hretry. unfold is_2xx in Hc. lia.
  - intros ->. destruct (Hok eq_refl) as (Hl & Hr & ->).
    destruct (write_body_spec path body fs) as (Hc & Ho & _). auto.
Qed.

(** A fetch returns [None] exactly when its five attempts went by without
    a 200, and then it has written nothing. *)
Lemma fetch_url_none_iff gtimeout entropy (srv : server) fs uri path :
  exists evs fs' ret,
    fetch_url gtimeout entropy srv fs (uri, path) = Ok (evs, fs', ret)
    /\ (exhausted srv uri evs -> ret = None /\ fs' = fs)
    /\ (ret = None -> exhausted srv uri evs)
    /\ (ret = None \/ ret = Some path).
Proof.
  destruct (fetch_url_spec gtimeout entropy srv fs uri path)
    as (evs & fs' & ret & Hf & Hl).
  destruct (fetch_loop_spec srv uri path 5 6 0 gtimeout fs)
    as (evs0 & fs0 & ret0 & Hl0 & _ & Hnone & Hsome & _ & _ & _ & Hwin & Hstep);
    [lia|].
  rewrite Hl in Hl0. injection Hl0 as <- <- <-.
  exists (Sleep (jitter entropy) :: evs), fs', ret.
  unfold exhausted.
  change (timeouts_of (Sleep (jitter entropy) :: evs)) with (timeouts_of evs).
  split; [exact Hf|]. repeat split.
  - destruct ret as [p|]; [|reflexivity]. destruct H as [_ Hno].
    destruct (Hwin p eq_refl) as (k & t & body & Hk & Hr).
    destruct (Hno k t Hk body Hr).
  - destruct ret as [p|]; [|apply Hnone; reflexivity]. destruct H as [_ Hno].
    destruct (Hwin p eq_refl) as (k & t & body & Hk & Hr).
    destruct (Hno k t Hk body Hr).
  - destruct (Hnone H). lia.
  - intros k t Hk body Hr. specialize (Hstep k t Hk). cbn in Hstep.
    rewrite Hr in Hstep. cbn in Hstep. destruct Hstep as (_ & Hs & _).
    congruence.
  - destruct ret as [p|]; [right|left; reflexivity].
    rewrite (Hsome p eq_refl). reflexivity.
Qed.

(** C7, as the code has it. A fetch whose five attempts are exhausted
    without a 200 returns [None], which holds neither the locator nor the
    destination of the item, and it leaves the files as they were;
    conversely [None] is returned in that case only. *)
Theorem fetch_url_exhausted_returns_none gtimeout entropy (srv : server) fs uri path :
  exists evs fs' ret,
    fetch_url gtimeout entropy srv fs (uri, path) = Ok (evs, fs', ret)
    /\ (exhausted srv uri evs -> ret = None /\ fs' = fs)
    /\ (ret = None -> exhausted srv uri evs).
Proof.
  destruct (fetch_url_none_iff gtimeout entropy srv fs uri path)
    as (evs & fs' & ret & Hf & H1 & H2 & _).
  exists evs, fs', ret. auto.
Qed.

(** C7 fails as stated. Two different items that both run out of attempts
    get the same return value, [None]; no reading of the returned values
    can therefore give back, for every exhausted fetch, a [FetchFailure]
    with the locator and the destination of its item. *)
Lemma fetch_url_failure_is_anonymous :
  (exists evs,
      fetch_url 180 0 always_404 no_files ("http://a", "a.jpeg")
      = Ok (evs, no_files, None)
      /\ exhausted always_404 "http://a" evs)
  /\ ~ (exists decode : option string -> fetch_outcome,
          forall gtimeout entropy srv fs uri path evs fs' ret,
            fetch_url gtimeout entropy srv fs (uri, path) = Ok (evs, fs', ret) ->
            exhausted srv uri evs ->
            decode ret = FetchFailure uri path).
Proof.
  assert (Ha : forall uri path,
             exists evs,
               fetch_url 180 0 always_404 no_files (uri, path)
               = Ok (evs, no_files, None)
               /\ exhausted always_404 uri evs).
  { intros uri path. eexists. split; [reflexivity|]. split; [reflexivity|].
    intros k t _ body. discriminate. }
  split; [apply Ha|].
  intros (decode & Hd).
  destruct (Ha "http://a" "a.jpeg") as (evs1 & H1 & E1).
  destruct (Ha "http://b" "b.jpeg") as (evs2 & H2 & E2).
  pose proof (Hd _ _ _ _ _ _ _ _ _ H1 E1) as D1.
  pose proof (Hd _ _ _ _ _ _ _ _ _ H2 E2) as D2.
  rewrite D1 in D2. discriminate D2.
Qed.

(** ** The jitter *)

Lemma randint_bounds (a b entropy : Z) :
  (a <= b -> a <= randint a b entropy <= b)%Z.
Proof.
  intros Hab. unfold randint.
  pose proof (Z.mod_pos_bound entropy (b - a + 1)). lia.
Qed.

(** C9, as the code has it. The sleep before the first attempt is
    [random.randint(1, 101) / 20] seconds: a multiple of 0.05s in the closed
    interval from 0.05s to 5.05s. It is the first thing a fetch does and the
    fetch does not sleep again. *)
Theorem jitter_interval (entropy : Z) :
  (exists n : Z, (1 <= n <= 101)%Z /\ jitter entropy = (inject_Z n / 20)%Q)
  /\ (1 # 20 <= jitter entropy)%Q
  /\ (jitter entropy <= 101 # 20)%Q
  /\ (forall gtimeout (srv : server) fs uri path,
        exists evs fs' ret,
          fetch_url gtimeout entropy srv fs (uri, path)
          = Ok (Sleep (jitter entropy) :: evs, fs', ret)
          /\ Forall (fun e => forall q, e <> Sleep q) evs).
Proof.
  pose proof (randint_bounds 1 101 entropy ltac:(lia)) as Hb.
  split; [exists (randint 1 101 entropy); split; [exact Hb|reflexivity]|].
  unfold jitter. repeat split.
  - unfold Qle. simpl. lia.
  - unfold Qle. simpl. lia.
  - intros gtimeout srv fs uri path.
    destruct (fetch_url_spec gtimeout entropy srv fs uri path)
      as (evs & fs' & ret & Hf & Hl).
    destruct (fetch_loop_spec srv uri path 5 6 0 gtimeout fs)
      as (evs0 & fs0 & ret0 & Hl0 & _ & _ & _ & _ & _ & Hns & _);
      [lia|].
    rewrite Hl in Hl0. injection Hl0 as <- <- <-.
    exists evs, fs', ret. split; [exact Hf|exact Hns].
Qed.

(** C9 fails as stated. [randint(1, 101)] can give 101 (and 100), and the
    fetch then sleeps 5.05s (5s), outside of [0.05s, 5s). *)
Lemma jitter_reaches_5_05 :
  (jitter 100 == 101 # 20)%Q
  /\ ~ within_spec_jitter (jitter 100)
  /\ ~ within_spec_jitter (jitter 99)
  /\ exists evs,
       fetch_url 180 100 always_404 no_files ("http://a", "a.jpeg")
       = Ok (Sleep (jitter 100) :: evs, no_files, None).
Proof.
  split; [reflexivity|]. split; [|split].
  - intros [_ H]. vm_compute in H. discriminate H.
  - intros [_ H]. vm_compute in H. discriminate H.
  - eexists. reflexivity.
Qed.

(** ** One call of the downloader *)

Lemma pair_entries_zip urlList downloadDirectory filenames :
  forall i,
    length urlList + i <= length filenames ->
    pair_entries i urlList downloadDirectory filenames
    = Ok (zip urlList (path_join downloadDirectory <$> drop i filenames)).
Proof.
  induction urlList as [|url urlList IH]; intros i Hlen; cbn [pair_entries].
  - reflexivity.
  - cbn [length] in Hlen.
    destruct (filenames !! i) as [filename|] eqn:Hi.
    + rewrite IH by lia. rewrite bind_ok.
      rewrite (drop_S _ _ _ Hi). reflexivity.
    + apply lookup_ge_None in Hi. lia.
Qed.

Lemma executor_map_spec gtimeout entropy (net : nat -> server) thisArray :
  forall i fs,
    exists calls fs',
      executor_map gtimeout entropy net i fs thisArray = Ok (calls, fs')
      /\ map (fun c => (entry_uri c, entry_path c)) calls = thisArray
      /\ Forall call_ok calls.
Proof.
  induction thisArray as [|[uri path] thisArray IH]; intros i fs;
    cbn [executor_map].
  - exists [], fs. repeat split. constructor.
  - destruct (fetch_url_none_iff gtimeout (entropy i) (net i) fs uri path)
      as (evs & fs1 & ret & Hf & _ & _ & Hret).
    destruct (fetch_url_spec gtimeout (entropy i) (net i) fs uri path)
      as (evs0 & fs0 & ret0 & Hf0 & Hl).
    rewrite Hf in Hf0. injection Hf0 as -> <- <-.
    destruct (fetch_loop_spec (net i) uri path 5 6 0 gtimeout fs)
      as (evs1 & fs2 & ret1 & Hl1 & _ & _ & _ & _ & Hloc & _); [lia|].
    rewrite Hl in Hl1. injection Hl1 as <- <- <-.
    rewrite Hf, bind_ok. cbn beta iota.
    destruct (IH (S i) fs1) as (calls & fs' & -> & Hmap & Hok).
    rewrite bind_ok. cbn beta iota.
    eexists _, _. split; [reflexivity|]. split.
    + cbn. rewrite Hmap. reflexivity.
    + constructor; [|exact Hok]. split; [exact Hret|exact Hloc].
Qed.

Lemma progress_fold totalCount results :
  forall returnPaths out,
    foldl (progress_step totalCount) (returnPaths, out) results
    = (returnPaths ++ results,
       out ++ map (fun k => PrintProgress k totalCount (batch_percent k totalCount))
                  (seq (S (length returnPaths)) (length results))).
Proof.
  induction results as [|r results IH]; intros returnPaths out; cbn [foldl].
  - now rewrite !app_nil_r.
  - unfold progress_step at 2. cbn [fst snd]. rewrite IH.
    rewrite length_app, <- !app_assoc. cbn [length app seq map].
    replace (length returnPaths + 1) with (S (length returnPaths)) by lia.
    reflexivity.
Qed.

Lemma NoDup_fmap_eq {A B} (f : A -> B) (l : list A) x y :
  NoDup (f <$> l) -> x ∈ l -> y ∈ l -> f x = f y -> x = y.
Proof.
  induction l as [|a l IH]; intros Hnd Hx Hy Hf; [inversion Hx|].
  cbn in Hnd. apply NoDup_cons in Hnd as [Hna Hnd].
  apply elem_of_cons in Hx as [->|Hx]; apply elem_of_cons in Hy as [->|Hy].
  - reflexivity.
  - destruct Hna. rewrite Hf. now apply list_elem_of_fmap_2.
  - destruct Hna. rewrite <- Hf. now apply list_elem_of_fmap_2.
  - now apply IH.
Qed.

(** [localPaths]: with pairwise distinct destinations, the destinations
    that occur among the results are those of the calls that returned
    one. *)
Lemma localPaths_spec (calls : list call) :
  Forall call_ok calls ->
  NoDup (entry_path <$> calls) ->
  map snd (filter (fun o : string * string => Some o.2 ∈ map returned calls)
                  (map (fun c => (entry_uri c, entry_path c)) calls))
  = omap returned calls.
Proof.
  intros Hok Hnd.
  assert (Hin : forall c, c ∈ calls ->
             Some (entry_path c) ∈ map returned calls ->
             returned c = Some (entry_path c)).
  { intros c Hc Hr. apply list_elem_of_fmap in Hr as (c' & Hr & Hc').
    assert (Hp : returned c' = Some (entry_path c')).
    { rewrite Forall_forall in Hok. destruct (Hok c' Hc') as [[Hn|Hs] _];
        [congruence|exact Hs]. }
    assert (entry_path c = entry_path c') by congruence.
    rewrite (NoDup_fmap_eq entry_path calls c c' Hnd Hc Hc'); auto. }
  assert (Haux : forall cs,
             (forall c, c ∈ cs -> c ∈ calls) ->
             Forall call_ok cs ->
             map snd (filter (fun o : string * string =>
                                Some o.2 ∈ map returned calls)
                             (map (fun c => (entry_uri c, entry_path c)) cs))
             = omap returned cs);
    [|apply Haux; auto].
  clear Hok.
  induction cs as [|c cs IH]; intros Hsub Hok; [reflexivity|].
  apply Forall_cons in Hok as [[[Hn|Hs] _] Hok].
  - cbn. rewrite Hn. destruct (decide _) as [Hr|_].
    + apply Hin in Hr; [congruence|]. apply Hsub. left.
    + apply IH; [|exact Hok]. intros c' Hc'. apply Hsub. now right.
  - cbn. rewrite Hs. destruct (decide _) as [_|Hr].
    + cbn. f_equal. apply IH; [|exact Hok].
      intros c' Hc'. apply Hsub. now right.
    + destruct Hr. rewrite <- Hs. apply list_elem_of_fmap_2. apply Hsub. left.
Qed.

Lemma pair_entries_short urlList downloadDirectory filenames :
  forall i,
    i <= length filenames ->
    length filenames < length urlList + i ->
    pair_entries i urlList downloadDirectory filenames = Raise IndexError.
Proof.
  induction urlList as [|url urlList IH]; intros i Hi Hlen; cbn [pair_entries].
  - cbn [length] in Hlen. lia.
  - destruct (filenames !! i) as [filename|] eqn:Hf; [|reflexivity].
    apply lookup_lt_Some in Hf.
    rewrite IH; [reflexivity|lia|]. cbn [length] in Hlen. lia.
Qed.

Lemma snd_zip_take {A B} (l : list A) (k : list B) :
  (zip l k).*2 = take (length l) k.
Proof.
  rewrite <- (zip_with_take_r _ l k). apply snd_zip.
  rewrite length_take. lia.
Qed.

(** What a call of the downloader does: it raises [IndexError] when there
    are fewer file names than locators; otherwise it fetches every locator
    to the file name of the same rank and prints one progress line for
    each result. *)
Lemma multiobject_download_spec entropy (net : nat -> server) fs urlList
    downloadDirectory filenames timeout :
  match multiobject_download entropy net fs urlList downloadDirectory
                             filenames timeout with
  | Ok d =>
      length urlList <= length filenames
      /\ entry_uri <$> traffic d = urlList
      /\ entry_path <$> traffic d
         = path_join downloadDirectory <$> take (length urlList) filenames
      /\ Forall call_ok (traffic d)
      /\ progress d = progress_lines (length urlList) (length urlList)
      /\ (NoDup (entry_path <$> traffic d) ->
          localPaths d = omap returned (traffic d))
  | Raise e => e = IndexError /\ length filenames < length urlList
  end.
Proof.
  unfold multiobject_download.
  destruct (le_lt_dec (length urlList) (length filenames)) as [Hle|Hlt].
  - rewrite pair_entries_zip by lia. rewrite bind_ok, drop_0.
    set (thisArray := zip urlList (path_join downloadDirectory <$> filenames)).
    destruct (executor_map_spec (float_of_int timeout) entropy net thisArray 0 fs)
      as (calls & fs' & -> & Hmap & Hok).
    rewrite bind_ok. cbn beta iota. rewrite progress_fold.
    cbn [traffic progress localPaths app length].
    assert (Huri : entry_uri <$> calls = urlList).
    { transitivity (thisArray.*1).
      - rewrite <- Hmap, <- list_fmap_compose. reflexivity.
      - apply fst_zip. rewrite length_fmap. exact Hle. }
    assert (Hpath : entry_path <$> calls
                    = path_join downloadDirectory <$> take (length urlList) filenames).
    { transitivity (thisArray.*2).
      - rewrite <- Hmap, <- list_fmap_compose. reflexivity.
      - unfold thisArray. rewrite snd_zip_take, fmap_take. reflexivity. }
    split; [exact Hle|]. split; [exact Huri|]. split; [exact Hpath|].
    split; [exact Hok|]. split.
    + unfold progress_lines. rewrite length_map.
      replace (length calls) with (length urlList); [reflexivity|].
      rewrite <- Huri. apply length_fmap.
    + intros Hnd. rewrite <- Hmap. apply localPaths_spec; assumption.
  - rewrite pair_entries_short by lia. cbn. split; [reflexivity|exact Hlt].
Qed.


(** ** File names *)

Lemma pretty_N_go_no_sep (x : N) :
  forall s, starts_with_sep s = false -> starts_with_sep (pretty_N_go x s) = false.
Proof.
  induction (N.lt_wf_0 x) as [x _ IH]; intros s Hs.
  destruct (decide (0 < x)%N) as [Hx|Hx].
  - rewrite pretty_N_go_step by exact Hx. apply IH.
    + apply N.div_lt; lia.
    + cbn. unfold pretty_N_char. repeat case_match; reflexivity.
  - replace x with 0%N by lia. exact Hs.
Qed.

Lemma starts_with_sep_app (a b : string) :
  starts_with_sep a = false -> starts_with_sep b = false ->
  starts_with_sep (a +:+ b) = false.
Proof. destruct a; intros Ha Hb; [exact Hb|exact Ha]. Qed.

Lemma jpeg_name_no_sep (n : nat) : starts_with_sep (jpeg_name n) = false.
Proof.
  unfold jpeg_name, pretty, pretty_nat, pretty, pretty_N.
  apply starts_with_sep_app; [|reflexivity].
  case_decide; [reflexivity|]. now apply pretty_N_go_no_sep.
Qed.

Lemma string_length_app (a b : string) :
  String.length (a +:+ b) = String.length a + String.length b.
Proof.
  induction a as [|x a IH]; [reflexivity|].
  change (S (String.length (a +:+ b)) = S (String.length a + String.length b)).
  now rewrite IH.
Qed.

Lemma string_app_inj_r (t a b : string) : a +:+ t = b +:+ t -> a = b.
Proof.
  revert b. induction a as [|x a IH]; intros [|y b] H.
  - reflexivity.
  - apply (f_equal String.length) in H.
    rewrite !string_length_app in H. cbn in H. lia.
  - apply (f_equal String.length) in H.
    rewrite !string_length_app in H. cbn in H. lia.
  - change (String x (a +:+ t) = String y (b +:+ t)) in H.
    injection H as -> H. f_equal. now apply IH.
Qed.

Lemma jpeg_name_inj : Inj (=) (=) jpeg_name.
Proof.
  intros n m H. unfold jpeg_name in H.
  apply string_app_inj_r in H. now apply pretty_nat_inj in H.
Qed.

(** Different counters give different destinations in a directory. *)
Lemma jpeg_path_inj (downdir : string) :
  Inj (=) (=) (fun counter => path_join downdir (jpeg_name counter)).
Proof.
  intros n m. unfold path_join. rewrite !jpeg_name_no_sep.
  destruct (String.eqb downdir "" || ends_with_sep downdir); intros H.
  - apply String.app_inj in H. now apply jpeg_name_inj.
  - apply String.app_inj in H. apply String.app_inj in H.
    now apply jpeg_name_inj.
Qed.

Lemma NoDup_jpeg_paths (downdir : string) (cs : list nat) :
  NoDup cs ->
  NoDup ((fun counter => path_join downdir (jpeg_name counter)) <$> cs).
Proof.
  intros Hcs. pose proof (jpeg_path_inj downdir) as Hinj.
  now apply NoDup_fmap_2.
Qed.

(** ** The queue of a batch *)

Section MainProperties.

Context {value : Type}.
Variable str : value -> string.
Variable get_SDSS_url : value -> value -> option string.

(** The loop over the rows: the pending rows get the next counters, in
    order; those with a locator are queued, the others are logged. *)
Lemma enqueue_rows_spec retrieved_ids rows :
  forall q,
    let q' := foldl (enqueue_row str get_SDSS_url retrieved_ids) q rows in
    let todo := pending str retrieved_ids rows in
    counter q' = counter q + length todo
    /\ objids q' = objids q ++ (jpeg_name <$> seq (counter q) (length todo))
    /\ allUrls q' = allUrls q ++ locators get_SDSS_url todo
    /\ url_notfound q'
       = url_notfound q ++ notfound_lines str get_SDSS_url todo.
Proof.
  induction rows as [|[[RA DEC] oid] rows IH]; intros q; cbn [foldl].
  - cbn. rewrite !app_nil_r. repeat split. lia.
  - cbn zeta. unfold pending. rewrite filter_cons. cbn [snd fst].
    fold (pending str retrieved_ids rows).
    unfold enqueue_row at 2 4 6 8.
    destruct (decide (str oid ∉ retrieved_ids)) as [Hpend|Hskip].
    + rewrite bool_decide_eq_false_2 by exact Hpend.
      unfold locators, notfound_lines. cbn [omap list_omap fst snd length].
      fold (locators get_SDSS_url (pending str retrieved_ids rows)).
      fold (notfound_lines str get_SDSS_url (pending str retrieved_ids rows)).
      destruct (get_SDSS_url RA DEC) as [url|] eqn:Hurl.
      * destruct (IH (Queue (counter q + 1) (objids q ++ [jpeg_name (counter q)])
                            (allUrls q ++ [url]) (url_notfound q) (stdout q)))
          as (Hc & Ho & Hu & Hn).
        cbn [counter objids allUrls url_notfound] in Hc, Ho, Hu, Hn.
        rewrite Hc, Ho, Hu, Hn, <- !app_assoc. cbn [seq fmap list_fmap app].
        replace (counter q + 1) with (S (counter q)) by lia.
        repeat split. lia.
      * destruct (IH (Queue (counter q + 1) (objids q ++ [jpeg_name (counter q)])
                            (allUrls q)
                            (url_notfound q
                               ++ [str RA +:+ "," +:+ str DEC +:+ " not found"])
                            (stdout q)))
          as (Hc & Ho & Hu & Hn).
        cbn [counter objids allUrls url_notfound] in Hc, Ho, Hu, Hn.
        rewrite Hc, Ho, Hu, Hn, <- !app_assoc. cbn [seq fmap list_fmap app].
        replace (counter q + 1) with (S (counter q)) by lia.
        repeat split. lia.
    + assert (Hin : str oid ∈ retrieved_ids).
      { destruct (decide (str oid ∈ retrieved_ids)); [assumption|contradiction]. }
      rewrite bool_decide_eq_true_2 by exact Hin.
      apply (IH (Queue (counter q) (objids q) (allUrls q) (url_notfound q)
                       (stdout q ++ [PrintSkipped]))).
Qed.

Lemma length_omap_le {A B} (f : A -> option B) (l : list A) :
  length (omap f l) <= length l.
Proof.
  induction l as [|a l IH]; [reflexivity|]. cbn.
  destruct (f a); cbn; lia.
Qed.

Lemma StronglySorted_seq (j n : nat) : StronglySorted lt (seq j n).
Proof.
  revert j. induction n as [|n IH]; intros j; cbn; constructor.
  - apply IH.
  - apply Forall_seq. intros k Hk. lia.
Qed.

Lemma StronglySorted_lt_NoDup (l : list nat) : StronglySorted lt l -> NoDup l.
Proof.
  induction 1 as [|x l _ IH Hx]; constructor; [|exact IH].
  intros Hin. rewrite Forall_forall in Hx. specialize (Hx x Hin). lia.
Qed.

(** One batch. It never raises: the loop over the rows gives at least as
    many file names as locators. *)
Lemma run_batch_spec downdir retrieved_ids entropy (net : nat -> server)
    st batch :
  exists st' calls,
    run_batch str get_SDSS_url downdir retrieved_ids entropy net st batch
    = Ok st'
    /\ run_extends str get_SDSS_url downdir retrieved_ids st batch st' calls
                   (seq (run_counter st) (length calls)).
Proof.
  unfold run_batch, enqueue_batch.
  destruct (enqueue_rows_spec retrieved_ids batch
              (Queue (run_counter st) [] [] (run_notfound st) (run_stdout st)))
    as (Hc & Ho & Hu & Hn).
  cbn [counter objids allUrls url_notfound app] in Hc, Ho, Hu, Hn.
  set (q := foldl _ _ batch) in *.
  set (todo := pending str retrieved_ids batch) in *.
  assert (Hlen : length (allUrls q) <= length todo).
  { rewrite Hu. apply length_omap_le. }
  pose proof (multiobject_download_spec entropy net (run_files st) (allUrls q)
                downdir (objids q) 180) as Hd.
  destruct (multiobject_download _ _ _ _ _ _ _) as [d|e].
  - destruct Hd as (_ & Huri & Hpath & Hok & _ & Hlocal).
    rewrite bind_ok. eexists _, (traffic d). split; [reflexivity|].
    assert (Hcalls : length (traffic d) = length (allUrls q)).
    { rewrite <- Huri. symmetry. apply length_fmap. }
    assert (Hpath' : entry_path <$> traffic d
              = (fun counter => path_join downdir (jpeg_name counter))
                  <$> seq (run_counter st) (length (traffic d))).
    { rewrite Hpath, Ho, <- fmap_take, take_seq, <- list_fmap_compose.
      rewrite Hcalls. f_equal. f_equal. lia. }
    unfold run_extends. fold todo.
    cbn [run_traffic run_ledger run_counter run_notfound].
    repeat split.
    + rewrite Huri. exact Hu.
    + exact Hpath'.
    + apply StronglySorted_seq.
    + apply Forall_seq. intros k Hk. lia.
    + exact Hok.
    + f_equal. apply Hlocal. rewrite Hpath'.
      apply NoDup_jpeg_paths, NoDup_seq.
    + exact Hc.
    + exact Hn.
  - destruct Hd as [_ Hshort]. rewrite Ho, length_fmap, length_seq in Hshort. lia.
Qed.

Lemma run_extends_refl downdir retrieved_ids st :
  run_extends str get_SDSS_url downdir retrieved_ids st [] st [] [].
Proof.
  unfold run_extends. cbn. rewrite !app_nil_r.
  repeat split; try constructor. lia.
Qed.

Lemma run_extends_trans downdir retrieved_ids st rows1 st1 calls1 cs1
    rows2 st2 calls2 cs2 :
  run_extends str get_SDSS_url downdir retrieved_ids st rows1 st1 calls1 cs1 ->
  run_extends str get_SDSS_url downdir retrieved_ids st1 rows2 st2 calls2 cs2 ->
  run_extends str get_SDSS_url downdir retrieved_ids st (rows1 ++ rows2) st2
              (calls1 ++ calls2) (cs1 ++ cs2).
Proof.
  unfold run_extends, pending, locators, notfound_lines.
  intros (Ht1 & Hu1 & Hp1 & Hs1 & Hb1 & Hok1 & Hl1 & Hc1 & Hn1)
         (Ht2 & Hu2 & Hp2 & Hs2 & Hb2 & Hok2 & Hl2 & Hc2 & Hn2).
  rewrite filter_app, !omap_app, !fmap_app, length_app.
  rewrite Forall_forall in Hb1, Hb2.
  repeat split.
  - rewrite Ht2, Ht1, app_assoc. reflexivity.
  - rewrite Hu1, Hu2. reflexivity.
  - rewrite Hp1, Hp2. reflexivity.
  - apply StronglySorted_app_2; [|assumption..].
    intros x1 x2 Hx1 Hx2. specialize (Hb1 x1 Hx1). specialize (Hb2 x2 Hx2). lia.
  - apply Forall_app. split; apply Forall_forall; intros x Hx.
    + specialize (Hb1 x Hx). lia.
    + specialize (Hb2 x Hx). lia.
  - apply Forall_app. split; assumption.
  - rewrite Hl2, Hl1, app_assoc. reflexivity.
  - lia.
  - rewrite Hn2, Hn1, app_assoc. reflexivity.
Qed.

(** All the batches: the loop never raises, whatever the fetches do. *)
Lemma run_batches_spec downdir retrieved_ids entropy
    (net : nat -> nat -> server) batches :
  forall b st,
    exists st' calls cs,
      run_batches str get_SDSS_url downdir retrieved_ids entropy net b st
                  batches = Ok st'
      /\ run_extends str get_SDSS_url downdir retrieved_ids st
                     (concat batches) st' calls cs.
Proof.
  induction batches as [|batch batches IH]; intros b st; cbn [run_batches concat].
  - exists st, [], []. split; [reflexivity|apply run_extends_refl].
  - destruct (run_batch_spec downdir retrieved_ids (entropy b) (net b) st batch)
      as (st1 & calls1 & -> & H1).
    rewrite bind_ok.
    destruct (IH (S b) st1) as (st' & calls2 & cs2 & -> & H2).
    eexists _, _, _. split; [reflexivity|].
    eapply run_extends_trans; eassumption.
Qed.

(** The whole run. *)
Lemma main_spec args_o data read_csv entropy (net : nat -> nat -> server) fs :
  exists st cs,
    main str get_SDSS_url args_o data read_csv entropy net fs = Ok st
    /\ run_extends str get_SDSS_url (path_join args_o "panstamps")
                   (load_retrieved_ids read_csv) (Run 1 [] [] fs [] []) data
                   st (run_traffic st) cs.
Proof.
  unfold main.
  destruct (chunks_spec data 10) as (batches & -> & Hcat & _); [lia|].
  rewrite bind_ok.
  destruct (run_batches_spec (path_join args_o "panstamps")
              (load_retrieved_ids read_csv) entropy net batches 0
              (Run 1 [] [] fs [] []))
    as (st & calls & cs & -> & H).
  exists st, cs. split; [reflexivity|].
  rewrite Hcat in H. pose proof H as (Ht & _). cbn in Ht. rewrite Ht. exact H.
Qed.

(** ** Resuming *)

(** A row whose [str(oid)] is among the ids recovered from the ledger
    only makes the script print "skipped": it gets no file name and no
    locator. Over a whole run the calls of [fetch_url] are, in order,
    those for the locators of the rows whose [str(oid)] is not among the
    recovered ids: each call belongs to such a row, and each GET request
    of a call goes to the locator of that call. Which ids the ledger of a
    run gives back is another matter, settled in "Running twice". *)
Lemma recovered_ids_are_skipped args_o data read_csv entropy
    (net : nat -> nat -> server) fs :
  (forall q RA DEC oid,
      str oid ∈ load_retrieved_ids read_csv ->
      enqueue_row str get_SDSS_url (load_retrieved_ids read_csv) q (RA, DEC, oid)
      = Queue (counter q) (objids q) (allUrls q) (url_notfound q)
              (stdout q ++ [PrintSkipped]))
  /\ exists st,
      main str get_SDSS_url args_o data read_csv entropy net fs = Ok st
      /\ entry_uri <$> run_traffic st
         = locators get_SDSS_url
             (pending str (load_retrieved_ids read_csv) data)
      /\ Forall (fun c =>
                   (exists row,
                       row ∈ data
                       /\ (str row.2 ∉ load_retrieved_ids read_csv)
                       /\ get_SDSS_url row.1.1 row.1.2 = Some (entry_uri c))
                   /\ Forall (eq (entry_uri c)) (locators_of (events c)))
                (run_traffic st).
Proof.
  split.
  - intros q RA DEC oid Hin. unfold enqueue_row.
    rewrite bool_decide_eq_true_2 by exact Hin. reflexivity.
  - destruct (main_spec args_o data read_csv entropy net fs)
      as (st & cs & Hm & (_ & Hu & _ & _ & _ & Hok & _)).
    exists st. split; [exact Hm|]. split; [exact Hu|].
    apply Forall_forall. intros c Hc. split.
    + assert (Hin : entry_uri c ∈ entry_uri <$> run_traffic st)
        by now apply list_elem_of_fmap_2.
      rewrite Hu in Hin. unfold locators in Hin.
      apply list_elem_of_omap in Hin as (row & Hrow & Hget).
      unfold pending in Hrow. apply list_elem_of_filter in Hrow as [Hp Hd].
      exists row. auto.
    + rewrite Forall_forall in Hok. apply (Hok c Hc).
Qed.

(** ** Failures *)

(** Where every file opens and every body is read to its end, a run
    completes: [fetch_url] is called for every queued locator of every
    batch, whatever the other calls return. The rows appended to the
    ledger are the destinations that the calls returned, in order: a call
    that returned [None] contributes none, and its destination is not in
    the ledger; a call that succeeded returned its own destination, which
    is in the ledger. *)
Lemma exhausted_items_do_not_abort args_o data read_csv entropy
    (net : nat -> nat -> server) fs :
  exists st,
    main str get_SDSS_url args_o data read_csv entropy net fs = Ok st
    /\ entry_uri <$> run_traffic st
       = locators get_SDSS_url (pending str (load_retrieved_ids read_csv) data)
    /\ run_ledger st = omap returned (run_traffic st)
    /\ Forall (fun c =>
                 match returned c with
                 | None => entry_path c ∉ run_ledger st
                 | Some p => p = entry_path c /\ p ∈ run_ledger st
                 end) (run_traffic st).
Proof.
  destruct (main_spec args_o data read_csv entropy net fs)
    as (st & cs & Hm & (_ & Hu & Hp & Hs & _ & Hok & Hl & _)).
  cbn [run_ledger app] in Hl.
  exists st. split; [exact Hm|]. split; [exact Hu|]. split; [exact Hl|].
  assert (Hnd : NoDup (entry_path <$> run_traffic st)).
  { rewrite Hp.
    apply NoDup_jpeg_paths, StronglySorted_lt_NoDup, Hs. }
  rewrite Forall_forall in Hok.
  apply Forall_forall. intros c Hc. rewrite Hl.
  destruct (returned c) as [p|] eqn:Hr.
  - destruct (Hok c Hc) as [[Hn|Hsome] _]; [congruence|].
    split; [congruence|]. apply list_elem_of_omap. exists c. auto.
  - intros Hin. apply list_elem_of_omap in Hin as (c' & Hc' & Hr').
    destruct (Hok c' Hc') as [[Hn|Hsome] _]; [congruence|].
    assert (entry_path c' = entry_path c) by congruence.
    rewrite (NoDup_fmap_eq entry_path _ c' c Hnd Hc' Hc) in Hr'; congruence.
Qed.

(** C5. A row that is not skipped and for which [get_SDSS_url] raises adds
    exactly one line to the failure log and no locator to the queue. It
    does take a file name, but the downloader pairs the locators with the
    first file names only: the batch with the row hands the downloader
    the same (locator, destination) pairs as the batch without it. *)
Theorem locator_failure_logged_not_queued retrieved_ids st downdir
    pre RA DEC oid post :
  str oid ∉ retrieved_ids ->
  get_SDSS_url RA DEC = None ->
  let q := enqueue_batch str get_SDSS_url retrieved_ids st pre in
  let q1 := enqueue_batch str get_SDSS_url retrieved_ids st
                          (pre ++ (RA, DEC, oid) :: post) in
  let q0 := enqueue_batch str get_SDSS_url retrieved_ids st (pre ++ post) in
  enqueue_row str get_SDSS_url retrieved_ids q (RA, DEC, oid)
  = Queue (counter q + 1) (objids q ++ [jpeg_name (counter q)]) (allUrls q)
          (url_notfound q ++ [str RA +:+ "," +:+ str DEC +:+ " not found"])
          (stdout q)
  /\ allUrls q1 = allUrls q0
  /\ length (url_notfound q1) = S (length (url_notfound q0))
  /\ pair_entries 0 (allUrls q1) downdir (objids q1)
     = pair_entries 0 (allUrls q0) downdir (objids q0)
  /\ exists thisArray,
       pair_entries 0 (allUrls q1) downdir (objids q1) = Ok thisArray
       /\ thisArray.*1 = allUrls q0.
Proof.
  intros Hpend Hurl q q1 q0. split.
  { unfold enqueue_row.
    rewrite bool_decide_eq_false_2 by exact Hpend. rewrite Hurl. reflexivity. }
  subst q q1 q0. unfold enqueue_batch.
  set (q := Queue (run_counter st) [] [] (run_notfound st) (run_stdout st)).
  destruct (enqueue_rows_spec retrieved_ids (pre ++ (RA, DEC, oid) :: post) q)
    as (Hc1 & Ho1 & Hu1 & Hn1).
  destruct (enqueue_rows_spec retrieved_ids (pre ++ post) q)
    as (Hc0 & Ho0 & Hu0 & Hn0).
  cbn zeta in Hc1, Ho1, Hu1, Hn1, Hc0, Ho0, Hu0, Hn0.
  set (q1 := foldl _ q (pre ++ (RA, DEC, oid) :: post)) in *.
  set (q0 := foldl _ q (pre ++ post)) in *.
  unfold pending in Hc1, Ho1, Hu1, Hn1, Hc0, Ho0, Hu0, Hn0.
  rewrite filter_app in Hc1, Ho1, Hu1, Hn1, Hc0, Ho0, Hu0, Hn0.
  rewrite filter_cons_True in Hc1, Ho1, Hu1, Hn1 by exact Hpend.
  fold (pending str retrieved_ids pre) in *.
  fold (pending str retrieved_ids post) in *.
  unfold locators in Hu1, Hu0. unfold notfound_lines in Hn1, Hn0.
  rewrite omap_app in Hu1, Hu0, Hn1, Hn0.
  cbn [omap list_omap fst snd] in Hu1, Hn1. rewrite Hurl in Hu1, Hn1.
  fold (locators get_SDSS_url (pending str retrieved_ids pre)) in *.
  fold (locators get_SDSS_url (pending str retrieved_ids post)) in *.
  fold (notfound_lines str get_SDSS_url (pending str retrieved_ids pre)) in *.
  fold (notfound_lines str get_SDSS_url (pending str retrieved_ids post)) in *.
  assert (Hu : allUrls q1 = allUrls q0) by (rewrite Hu1, Hu0; reflexivity).
  cbn [counter objids allUrls url_notfound q app] in Hc1, Ho1, Hu1, Hn1, Hc0, Ho0, Hu0, Hn0.
  assert (Hlen : length (allUrls q0)
                 <= length (pending str retrieved_ids pre)
                    + length (pending str retrieved_ids post)).
  { rewrite Hu0, length_app. unfold locators.
    pose proof (length_omap_le
                  (fun row : value * value * value =>
                     get_SDSS_url row.1.1 row.1.2)
                  (pending str retrieved_ids pre)).
    pose proof (length_omap_le
                  (fun row : value * value * value =>
                     get_SDSS_url row.1.1 row.1.2)
                  (pending str retrieved_ids post)).
    lia. }
  assert (Hpairs : pair_entries 0 (allUrls q1) downdir (objids q1)
                   = pair_entries 0 (allUrls q0) downdir (objids q0)).
  { rewrite !pair_entries_zip.
    - rewrite !drop_0, Hu. f_equal.
      rewrite <- (zip_with_take_r _ (allUrls q0) (_ <$> objids q1)).
      rewrite <- (zip_with_take_r _ (allUrls q0) (_ <$> objids q0)).
      f_equal. rewrite Ho1, Ho0.
      rewrite <- !fmap_take, !take_seq, !length_app. cbn [length].
      do 3 f_equal. lia.
    - rewrite Ho0.
      rewrite length_fmap, length_seq, length_app. lia.
    - rewrite Hu, Ho1.
      rewrite length_fmap, length_seq, length_app. cbn [length]. lia. }
  split; [exact Hu|]. split.
  { rewrite Hn1, Hn0, !length_app. cbn [length]. lia. }
  split; [exact Hpairs|].
  rewrite Hpairs, pair_entries_zip.
  - eexists. split; [reflexivity|]. apply fst_zip.
    rewrite drop_0, length_fmap, Ho0.
    rewrite length_fmap, length_seq, length_app. lia.
  - rewrite Ho0.
    rewrite length_fmap, length_seq, length_app. lia.
Qed.

(** ** Destinations *)

(** A fetch writes to its own destination only. *)
Lemma fetch_loop_frame (srv : server) uri path tries q :
  q <> path ->
  forall fuel downloaded count timeout fs evs fs' ret,
    fetch_loop fuel srv uri path tries downloaded count timeout fs
    = Ok (evs, fs', ret) ->
    contents fs' !! q = contents fs !! q.
Proof.
  intros Hq. induction fuel as [|fuel IH];
    intros downloaded count timeout fs evs fs' ret H; cbn [fetch_loop] in H;
    [discriminate H|].
  destruct (negb downloaded && (count <? tries)); [|congruence].
  destruct (srv count uri timeout) as [e|status_code body].
  - destruct (fetch_loop fuel srv uri path tries downloaded (count + 1)
                         (timeout * 2) fs) as [[[evs1 fs1] ret1]|e1] eqn:Hrec;
      cbn in H; [|discriminate H].
    injection H as _ <- _. eapply IH, Hrec.
  - destruct (status_code =? 200)%Z.
    + injection H as _ <- _. now apply write_body_spec.
    + destruct (fetch_loop fuel srv uri path tries false (count + 1)
                           timeout fs) as [[[evs1 fs1] ret1]|e1] eqn:Hrec;
        cbn in H; [|discriminate H].
      injection H as _ <- _. eapply IH, Hrec.
Qed.

(** C10. In every batch the rows that are not skipped get the file names
    [<counter>.jpeg] for the consecutive values of the counter, which the
    batch hands over to the next one. Over a whole run, which starts the
    counter at 1, the destinations of the calls of [fetch_url] are named
    after strictly increasing counters from 1 on: they are pairwise
    distinct, and a fetch leaves every file but its own destination as it
    was. *)
Theorem destinations_are_distinct args_o data read_csv entropy
    (net : nat -> nat -> server) fs :
  (forall retrieved_ids st batch,
      objids (enqueue_batch str get_SDSS_url retrieved_ids st batch)
      = jpeg_name <$> seq (run_counter st)
                          (length (pending str retrieved_ids batch))
      /\ counter (enqueue_batch str get_SDSS_url retrieved_ids st batch)
         = run_counter st + length (pending str retrieved_ids batch))
  /\ (exists st cs,
        main str get_SDSS_url args_o data read_csv entropy net fs = Ok st
        /\ entry_path <$> run_traffic st
           = (fun counter =>
                path_join (path_join args_o "panstamps") (jpeg_name counter))
               <$> cs
        /\ StronglySorted lt cs
        /\ Forall (fun counter => 1 <= counter < run_counter st) cs
        /\ run_counter st
           = 1 + length (pending str (load_retrieved_ids read_csv) data)
        /\ NoDup (entry_path <$> run_traffic st))
  /\ (forall gtimeout e (srv : server) fs0 uri path q,
        exists evs fs' ret,
          fetch_url gtimeout e srv fs0 (uri, path) = Ok (evs, fs', ret)
          /\ (q <> path -> contents fs' !! q = contents fs0 !! q)).
Proof.
  split; [|split].
  - intros retrieved_ids st batch. unfold enqueue_batch.
    destruct (enqueue_rows_spec retrieved_ids batch
                (Queue (run_counter st) [] [] (run_notfound st) (run_stdout st)))
      as (Hc & Ho & _).
    split; [exact Ho|exact Hc].
  - destruct (main_spec args_o data read_csv entropy net fs)
      as (st & cs & Hm & (_ & _ & Hp & Hs & Hb & _ & _ & Hc & _)).
    exists st, cs. repeat split; try assumption.
    rewrite Hp.
    apply NoDup_jpeg_paths, StronglySorted_lt_NoDup, Hs.
  - intros gtimeout e srv fs0 uri path q.
    destruct (fetch_url_spec gtimeout e srv fs0 uri path)
      as (evs & fs' & ret & Hf & Hl).
    eexists _, _, _. split; [exact Hf|].
    intros Hq. eapply fetch_loop_frame; eassumption.
Qed.

End MainProperties.

(** ** Progress lines *)

(** The lines count the fetches that are over, not the files that were
    downloaded. One row whose five attempts are all answered by 404:
    nothing is downloaded and the ledger stays empty, yet the line printed
    for the batch says 1 / 1 and 100 percent, where the specification has
    0 / 1 * 100 = 0. *)
Lemma progress_counts_failed_fetches :
  exists st p,
    main (fun s : string => s) sample_locator
         "images" [("10.5", "-1.25", "587722")] None
         (fun _ _ => 0%Z) (fun _ _ => always_404) no_files = Ok st
    /\ run_ledger st = []
    /\ returned <$> run_traffic st = [None]
    /\ run_stdout st = [PrintProgress 1 1 p]
    /\ (p == 100)%Q
    /\ ~ (p == spec_percent (length (run_ledger st)) 1)%Q.
Proof.
  eexists _, _. split; [vm_compute; reflexivity|].
  repeat split. intros H. vm_compute in H. discriminate H.
Qed.


(** ** A locator failure on a sample batch *)

(** Three rows, the second without a locator, none in the ledger ["1"]. *)
Lemma locator_failure_logged_not_queued_witness :
  ("12" ∉ ["1"])
  /\ sample_locator "nan" "2.5" = None
  /\ length (url_notfound
               (enqueue_batch (fun s : string => s) sample_locator ["1"]
                  (Run 1 [] [] no_files [] [])
                  ([("10.5", "-1.25", "11")]
                     ++ ("nan", "2.5", "12") :: [("11.5", "0.5", "13")])))
     = S (length (url_notfound
                    (enqueue_batch (fun s : string => s) sample_locator ["1"]
                       (Run 1 [] [] no_files [] [])
                       ([("10.5", "-1.25", "11")] ++ [("11.5", "0.5", "13")])))).
Proof.
  assert (H1 : "12" ∉ ["1"]).
  { intros Hin. apply list_elem_of_singleton in Hin. discriminate Hin. }
  assert (H2 : sample_locator "nan" "2.5" = None) by reflexivity.
  split; [exact H1|]. split; [exact H2|].
  exact (proj1 (proj2 (proj2
           (locator_failure_logged_not_queued (fun s : string => s)
              sample_locator ["1"] (Run 1 [] [] no_files [] []) "images/panstamps"
              [("10.5", "-1.25", "11")] "nan" "2.5" "12"
              [("11.5", "0.5", "13")] H1 H2)))).
Defined.

(** ** The scenarios of the specification, run on the model *)

(** Two transport failures, then a 200: the timeout goes 180, 360, 720 and
    the body ends up in the destination, which is closed. *)
Example backoff_then_success :
  exists evs fs',
    fetch_url 180 0 third_time_lucky no_files ("http://a", "a.jpeg")
    = Ok (evs, fs', Some "a.jpeg")
    /\ timeouts_of evs = [180; 360; 720]%Z
    /\ contents fs' !! "a.jpeg" = Some "JFIF"
    /\ elements (opened fs') = [].
Proof. eexists _, _. repeat split. Qed.

(** A 503, then a 200: the second request has the timeout of the first. *)
Example status_retry_keeps_timeout :
  exists evs fs',
    fetch_url 180 0 busy_once no_files ("http://a", "a.jpeg")
    = Ok (evs, fs', Some "a.jpeg")
    /\ timeouts_of evs = [180; 180]%Z
    /\ WarnStatus 503 1 5 ∈ evs.
Proof.
  eexists _, _. split; [reflexivity|]. split; [reflexivity|].
  vm_compute. do 2 right. left.
Qed.

(** Twelve rows, batches of 10 and 2; the third and the seventh item get a
    404 at every attempt. The run ends with 10 rows in the ledger; the two
    items made five requests each and are not recorded. *)
Example twelve_rows_two_failures :
  exists st,
    main (fun s : string => s) sample_locator "images"
         (map (fun n => (pretty n, "0", pretty (100 + n))) (seq 0 12)) None
         (fun _ _ => 0%Z)
         (fun b i => if (b =? 0) && ((i =? 2) || (i =? 6)) then always_404
                     else busy_once)
         no_files = Ok st
    /\ length (run_traffic st) = 12
    /\ length (run_ledger st) = 10
    /\ (fun c => (entry_path c, length (timeouts_of (events c))))
         <$> filter (fun c => returned c = None) (run_traffic st)
       = [("images/panstamps/3.jpeg", 5); ("images/panstamps/7.jpeg", 5)]
    /\ ("images/panstamps/3.jpeg" ∉ run_ledger st)
    /\ run_counter st = 13.
Proof.
  eexists. split; [vm_compute; reflexivity|].
  repeat split. vm_compute. intros H.
  repeat (apply elem_of_cons in H as [H|H]; [discriminate H|]).
  inversion H.
Qed.

(** The ids recovered from a ledger are the stems of its file names; a row
    with such an id is skipped, and no request is made for it. *)
Example ledger_id_42_is_skipped :
  load_retrieved_ids (Some [Some "images/panstamps/42.jpeg"; None]) = ["42"]
  /\ load_retrieved_ids None = []
  /\ exists st,
       main (fun s : string => s) sample_locator "images"
            [("10.5", "-1.25", "42"); ("11.5", "0.5", "43")]
            (Some [Some "images/panstamps/42.jpeg"; None])
            (fun _ _ => 0%Z) (fun _ _ => busy_once) no_files = Ok st
       /\ entry_uri <$> run_traffic st = [SDSS_url_text "11.5" "0.5"]
       /\ run_ledger st = ["images/panstamps/1.jpeg"]
       /\ run_stdout st = [PrintSkipped; PrintProgress 1 1 (100 # 1)].
Proof.
  split; [reflexivity|]. split; [reflexivity|].
  eexists. split; [vm_compute; reflexivity|]. repeat split.
Qed.

(** * Further properties of the code *)

(** ** [chunks] for any size *)

(** X1. For every positive size [n], [chunks(lst, n)] cuts the list into
    consecutive slices: they give the list back when put end to end, none
    is empty, all but the last have [n] items, and there are
    ceil(len / n) of them. *)
Theorem chunks_partition_any_size {A} (lst : list A) (n : nat) :
  0 < n ->
  exists batches,
    chunks lst n = Ok batches
    /\ concat batches = lst
    /\ Forall (fun b : list A => 1 <= length b <= n) batches
    /\ Forall (fun b : list A => length b = n) (removelast batches)
    /\ length batches = (length lst + (n - 1)) / n.
Proof. apply chunks_spec. Qed.

Lemma chunks_partition_any_size_witness :
  0 < 3
  /\ exists batches,
       chunks [1; 2; 3; 4; 5; 6; 7] 3 = Ok batches
       /\ concat batches = [1; 2; 3; 4; 5; 6; 7]
       /\ Forall (fun b : list nat => 1 <= length b <= 3) batches
       /\ Forall (fun b : list nat => length b = 3) (removelast batches)
       /\ length batches = (length [1; 2; 3; 4; 5; 6; 7] + (3 - 1)) / 3.
Proof.
  split; [lia|]. apply (chunks_partition_any_size [1; 2; 3; 4; 5; 6; 7] 3). lia.
Defined.

Lemma range_from_lookup (stop step : nat) :
  0 < step ->
  forall fuel i k,
    stop <= i + fuel ->
    range_from fuel i stop step !! k
    = if i + k * step <? stop then Some (i + k * step) else None.
Proof.
  intros Hstep. induction fuel as [|fuel IH]; intros i k Hfuel; cbn [range_from].
  - destruct (Nat.ltb_spec (i + k * step) stop); [nia|reflexivity].
  - destruct (Nat.ltb_spec i stop) as [Hi|Hi].
    + destruct k as [|k]; cbn [lookup list_lookup].
      * rewrite Nat.add_0_r. destruct (Nat.ltb_spec i stop); [reflexivity|lia].
      * change ((i :: range_from fuel (i + step) stop step) !! S k)
          with (range_from fuel (i + step) stop step !! k).
        rewrite IH by lia.
        replace (i + step + k * step) with (i + S k * step) by lia.
        reflexivity.
    + destruct (Nat.ltb_spec (i + k * step) stop); [nia|reflexivity].
Qed.

(** X2. The batch number [k] (from 0) of [chunks(lst, n)] is the slice
    [lst[k*n : k*n + n]] as long as [k * n] is below the length of the
    list, and there is no batch beyond; a size of 0 raises [ValueError],
    also for the empty list. *)
Theorem chunks_lookup {A} (lst : list A) (n : nat) :
  match chunks lst n with
  | Ok batches =>
      0 < n
      /\ forall k,
           batches !! k
           = if k * n <? length lst then Some (take n (drop (k * n) lst))
             else None
  | Raise e => e = ValueError /\ n = 0
  end.
Proof.
  unfold chunks, range. destruct (Nat.eqb_spec n 0) as [->|Hn].
  - cbn. auto.
  - rewrite bind_ok. split; [lia|]. intros k. rewrite list_lookup_fmap.
    rewrite range_from_lookup by lia. rewrite Nat.add_0_l.
    destruct (k * n <? length lst); [|reflexivity].
    cbn [fmap option_fmap option_map]. unfold slice. do 2 f_equal. lia.
Qed.

(** ** More on one fetch *)

(** The timeouts of the requests of a fetch. *)
Lemma fetch_url_backoff_bounds gtimeout entropy (srv : server) fs uri path :
  exists evs fs' ret,
    fetch_url gtimeout entropy srv fs (uri, path) = Ok (evs, fs', ret)
    /\ timeouts_of evs !! 0 = Some gtimeout
    /\ 1 <= length (timeouts_of evs) <= 5
    /\ (forall k t,
          timeouts_of evs !! k = Some t ->
          exists j, j <= k /\ t = (gtimeout * 2 ^ Z.of_nat j)%Z)
    /\ ((0 <= gtimeout)%Z ->
        Forall (fun t => (gtimeout <= t <= 16 * gtimeout)%Z) (timeouts_of evs)).
Proof.
  destruct (fetch_url_spec gtimeout entropy srv fs uri path)
    as (evs & fs' & ret & Hf & Hl).
  destruct (fetch_loop_spec srv uri path 5 6 0 gtimeout fs)
    as (evs0 & fs0 & ret0 & Hl0 & Hlen & _ & _ & Hhd & _ & _ & _ & Hstep);
    [lia|].
  rewrite Hl in Hl0. injection Hl0 as <- <- <-.
  exists (Sleep (jitter entropy) :: evs), fs', ret.
  change (timeouts_of (Sleep (jitter entropy) :: evs)) with (timeouts_of evs).
  specialize (Hhd ltac:(lia)).
  assert (Hpow : forall k t,
             timeouts_of evs !! k = Some t ->
             exists j, j <= k /\ t = (gtimeout * 2 ^ Z.of_nat j)%Z).
  { induction k as [|k IH]; intros t' Hk.
    - exists 0. split; [lia|]. rewrite Hhd in Hk. injection Hk as <-. lia.
    - pose proof (lookup_lt_Some _ _ _ Hk) as Hlt.
      destruct (lookup_lt_is_Some_2 (timeouts_of evs) k) as [t Ht]; [lia|].
      destruct (IH t Ht) as (j & Hj & ->).
      specialize (Hstep k _ Ht). cbn in Hstep.
      destruct (srv k uri (gtimeout * 2 ^ Z.of_nat j)%Z) as [e|c body].
      + destruct Hstep as [_ Hnext]. rewrite Hnext in Hk by lia.
        injection Hk as <-. exists (S j). split; [lia|].
        rewrite Nat2Z.inj_succ, Z.pow_succ_r by lia. lia.
      + destruct (c =? 200)%Z.
        * destruct Hstep as (Hlast & _). lia.
        * destruct Hstep as [_ Hnext]. rewrite Hnext in Hk by lia.
          injection Hk as <-. exists j. split; [lia|reflexivity]. }
  split; [exact Hf|]. split; [exact Hhd|]. split.
  { apply lookup_lt_Some in Hhd. lia. }
  split; [exact Hpow|].
  intros Hpos. apply Forall_lookup. intros k t Hk.
  destruct (Hpow k t Hk) as (j & Hj & ->).
  apply lookup_lt_Some in Hk.
  assert (1 <= 2 ^ Z.of_nat j <= 2 ^ 4)%Z.
  { split; [|apply Z.pow_le_mono_r; lia].
    pose proof (Z.pow_pos_nonneg 2 (Z.of_nat j)). lia. }
  change (2 ^ 4)%Z with 16%Z in *. nia.
Qed.

(** X3. A fetch makes between one and five GET requests. The first has the
    base timeout; the timeout of request [k] is the base timeout doubled at
    most [k] times, so that with a base timeout that is not negative no
    request waits longer than 16 times the base timeout. *)
Theorem fetch_url_timeouts gtimeout entropy (srv : server) fs uri path :
  exists evs fs' ret,
    fetch_url gtimeout entropy srv fs (uri, path) = Ok (evs, fs', ret)
    /\ timeouts_of evs !! 0 = Some gtimeout
    /\ 1 <= length (timeouts_of evs) <= 5
    /\ (forall k t,
          timeouts_of evs !! k = Some t ->
          exists j, j <= k /\ t = (gtimeout * 2 ^ Z.of_nat j)%Z)
    /\ ((0 <= gtimeout)%Z ->
        Forall (fun t => (gtimeout <= t <= 16 * gtimeout)%Z) (timeouts_of evs)).
Proof. apply fetch_url_backoff_bounds. Qed.

(** X4. Only the status 200 is a success. An answer with another 2xx
    status (201, 204, 206 ...) counts as a failed attempt like any error
    status: a warning with the next attempt number, the same timeout for
    the next request, and [None] when it answers the fifth request. *)
Theorem fetch_url_other_2xx_is_a_failure gtimeout entropy (srv : server) fs
    uri path :
  exists evs fs' ret,
    fetch_url gtimeout entropy srv fs (uri, path) = Ok (evs, fs', ret)
    /\ (forall k t status_code body,
          timeouts_of evs !! k = Some t ->
          srv k uri t = Response status_code body ->
          is_2xx status_code -> status_code <> 200%Z ->
          WarnStatus status_code (k + 1) 5 ∈ evs
          /\ (k + 1 < 5 -> timeouts_of evs !! S k = Some t)
          /\ (k + 1 = 5 -> ret = None /\ fs' = fs)).
Proof.
  destruct (fetch_url_spec gtimeout entropy srv fs uri path)
    as (evs & fs' & ret & Hf & Hl).
  destruct (fetch_loop_spec srv uri path 5 6 0 gtimeout fs)
    as (evs0 & fs0 & ret0 & Hl0 & Hlen & Hnone & _ & _ & _ & _ & Hwin & Hstep);
    [lia|].
  rewrite Hl in Hl0. injection Hl0 as <- <- <-.
  exists (Sleep (jitter entropy) :: evs), fs', ret.
  change (timeouts_of (Sleep (jitter entropy) :: evs)) with (timeouts_of evs).
  split; [exact Hf|].
  intros k t c body Hk Hsrv _ Hne.
  pose proof (Hstep k t Hk) as Hs. cbn in Hs. rewrite Hsrv in Hs.
  destruct (Z.eqb_spec c 200) as [->|_]; [contradiction|].
  destruct Hs as [Hin Hnext].
  split; [right; exact Hin|]. split; [exact Hnext|].
  intros Hlast. assert (k = 4) as -> by lia.
  assert (ret = None) as ->; [|split; [reflexivity|apply Hnone; reflexivity]].
  destruct ret as [p|]; [|reflexivity].
  destruct (Hwin p eq_refl) as (k' & t' & body' & Hk' & Hr').
  pose proof (lookup_lt_Some _ _ _ Hk') as Hlt.
  pose proof (Hstep k' t' Hk') as Hs'. cbn in Hs', Hr'. rewrite Hr' in Hs'.
  cbn in Hs'. destruct Hs' as (Hlen' & _).
  pose proof (lookup_lt_Some _ _ _ Hk) as Hlt4.
  assert (k' = 4) as -> by lia.
  rewrite Hk in Hk'. injection Hk' as <-. congruence.
Qed.



(** ** Paths and ledger ids *)

Lemma basename_go_app (a b : string) :
  forall acc, basename_go acc (a +:+ b) = basename_go (basename_go acc a) b.
Proof.
  induction a as [|c a IH]; intros acc; [reflexivity|].
  change (String c a +:+ b) with (String c (a +:+ b)). cbn [basename_go].
  destruct (Ascii.eqb c "/"); apply IH.
Qed.

Lemma basename_go_no_sep (b : string) :
  string_forall not_sep b = true ->
  forall acc, basename_go acc b = acc +:+ b.
Proof.
  induction b as [|c b IH]; intros Hb acc; cbn [basename_go].
  - now rewrite string_app_nil_r.
  - cbn [string_forall] in Hb. apply andb_prop in Hb as [Hc Hb].
    unfold not_sep in Hc. apply negb_true_iff in Hc. rewrite Hc.
    rewrite IH by exact Hb. now rewrite string_app_assoc.
Qed.

Lemma basename_go_ends_with_sep (a : string) :
  ends_with_sep a = true -> forall acc, basename_go acc a = "".
Proof.
  induction a as [|c a IH]; intros Ha acc; [discriminate Ha|].
  cbn [basename_go]. destruct a as [|c' a].
  - cbn in Ha. rewrite Ha. reflexivity.
  - change (ends_with_sep (String c (String c' a)))
      with (ends_with_sep (String c' a)) in Ha.
    destruct (Ascii.eqb c "/"); now apply IH.
Qed.

Lemma starts_with_sep_no_sep (b : string) :
  string_forall not_sep b = true -> starts_with_sep b = false.
Proof.
  destruct b as [|c b]; [reflexivity|]. cbn. unfold not_sep.
  intros H. apply andb_prop in H as [Hc _]. now apply negb_true_iff in Hc.
Qed.

(** [basename] after [join], for a name without a slash. *)
Lemma basename_of_path_join (d name : string) :
  string_forall not_sep name = true ->
  basename (path_join d name) = name.
Proof.
  intros Hname. unfold basename, path_join.
  rewrite (starts_with_sep_no_sep _ Hname).
  destruct (String.eqb_spec d "") as [->|Hd]; cbn [orb].
  - now rewrite (basename_go_no_sep _ Hname).
  - destruct (ends_with_sep d) eqn:He.
    + rewrite basename_go_app, (basename_go_ends_with_sep _ He).
      now rewrite (basename_go_no_sep _ Hname).
    + rewrite !basename_go_app. cbn [basename_go Ascii.eqb].
      change (Ascii.eqb "/" "/") with true. cbn iota.
      now rewrite (basename_go_no_sep _ Hname).
Qed.

(** X6. [basename] undoes [join]: for a file name without a slash and any
    directory, [os.path.basename(os.path.join(d, name))] is [name]. *)
Theorem basename_path_join (d name : string) :
  string_forall not_sep name = true ->
  basename (path_join d name) = name.
Proof. apply basename_of_path_join. Qed.

Lemma basename_path_join_witness :
  string_forall not_sep "12.jpeg" = true
  /\ basename (path_join "images/panstamps" "12.jpeg") = "12.jpeg".
Proof.
  split; [reflexivity|]. apply (basename_path_join "images/panstamps" "12.jpeg").
  reflexivity.
Defined.

Lemma rstrip_all_stripped (chars : list ascii) (u : string) :
  string_forall (fun c => bool_decide (c ∈ chars)) u = true ->
  rstrip chars u = "".
Proof.
  induction u as [|c u IH]; intros Hu; [reflexivity|].
  cbn [string_forall] in Hu. apply andb_prop in Hu as [Hc Hu].
  cbn [rstrip]. rewrite IH by exact Hu. now rewrite Hc.
Qed.

Lemma rstrip_app_stripped (chars : list ascii) (s u : string) :
  string_forall (fun c => bool_decide (c ∈ chars)) u = true ->
  rstrip chars (s +:+ u) = rstrip chars s.
Proof.
  intros Hu. induction s as [|c s IH].
  - now apply rstrip_all_stripped.
  - change (String c s +:+ u) with (String c (s +:+ u)).
    cbn [rstrip]. now rewrite IH.
Qed.

Lemma rstrip_none_stripped (chars : list ascii) (s : string) :
  string_forall (fun c => negb (bool_decide (c ∈ chars))) s = true ->
  rstrip chars s = s.
Proof.
  induction s as [|c s IH]; intros Hs; [reflexivity|].
  cbn [string_forall] in Hs. apply andb_prop in Hs as [Hc Hs].
  cbn [rstrip]. rewrite IH by exact Hs.
  destruct s; [|reflexivity]. apply negb_true_iff in Hc. now rewrite Hc.
Qed.

(** X7. [s.rstrip(chars)] is a prefix of [s]; what it cuts off is made of
    characters of [chars] only, whatever their order; it is not changed by
    stripping again, nor by first appending more characters of [chars]. *)
Theorem rstrip_spec (chars : list ascii) (s : string) :
  (exists t,
      s = rstrip chars s +:+ t
      /\ string_forall (fun c => bool_decide (c ∈ chars)) t = true)
  /\ rstrip chars (rstrip chars s) = rstrip chars s
  /\ (forall u,
        string_forall (fun c => bool_decide (c ∈ chars)) u = true ->
        rstrip chars (s +:+ u) = rstrip chars s).
Proof.
  split; [|split].
  - induction s as [|c s (t & Hs & Ht)]; [exists ""; split; reflexivity|].
    cbn [rstrip]. destruct (rstrip chars s) as [|x r] eqn:Hr.
    + destruct (bool_decide (c ∈ chars)) eqn:Hc.
      * exists (String c t). change (s = t) in Hs. split; [now rewrite Hs|].
        cbn [string_forall]. now rewrite Hc, Ht.
      * exists t. split; [|exact Ht].
        change (String c s = String c ("" +:+ t)). now rewrite <- Hs.
    + exists t. split; [|exact Ht].
      change (String c (String x r) +:+ t) with (String c (String x r +:+ t)).
      now rewrite <- Hs.
  - induction s as [|c s IH]; [reflexivity|].
    cbn [rstrip]. destruct (rstrip chars s) as [|x r] eqn:Hr.
    + destruct (bool_decide (c ∈ chars)) eqn:Hc; [reflexivity|].
      cbn [rstrip]. now rewrite Hc.
    + cbn [rstrip] in *. now rewrite IH.
  - intros u Hu. now apply rstrip_app_stripped.
Qed.

Lemma string_forall_app (P : ascii -> bool) (a b : string) :
  string_forall P (a +:+ b) = string_forall P a && string_forall P b.
Proof.
  induction a as [|c a IH]; [reflexivity|].
  change (String c a +:+ b) with (String c (a +:+ b)).
  cbn [string_forall]. now rewrite IH, andb_assoc.
Qed.

Lemma string_forall_impl (P Q : ascii -> bool) (s : string) :
  (forall c, P c = true -> Q c = true) ->
  string_forall P s = true -> string_forall Q s = true.
Proof.
  intros HPQ. induction s as [|c s IH]; [reflexivity|].
  cbn [string_forall]. intros H. apply andb_prop in H as [Hc Hs].
  now rewrite (HPQ c Hc), IH.
Qed.

Lemma pretty_N_go_digits (x : N) :
  forall s, string_forall is_digit s = true ->
            string_forall is_digit (pretty_N_go x s) = true.
Proof.
  induction (N.lt_wf_0 x) as [x _ IH]; intros s Hs.
  destruct (decide (0 < x)%N) as [Hx|Hx].
  - rewrite pretty_N_go_step by exact Hx. apply IH.
    + apply N.div_lt; lia.
    + cbn [string_forall]. rewrite Hs, andb_true_r.
      unfold pretty_N_char. repeat case_match; reflexivity.
  - replace x with 0%N by lia. exact Hs.
Qed.

Lemma pretty_nat_digits (n : nat) : string_forall is_digit (pretty n) = true.
Proof.
  unfold pretty, pretty_nat, pretty, pretty_N.
  case_decide; [reflexivity|]. now apply pretty_N_go_digits.
Qed.

Lemma is_digit_cases (c : ascii) :
  is_digit c = true ->
  not_sep c = true /\ negb (bool_decide (c ∈ jpeg_chars)) = true.
Proof.
  unfold is_digit. intros H. apply bool_decide_eq_true_1 in H.
  repeat (apply elem_of_cons in H as [->|H]; [split; reflexivity|]).
  inversion H.
Qed.

(** The ids recovered from the paths of downloaded files. *)
Lemma load_retrieved_ids_jpeg_paths (d : string) (cs : list nat) :
  load_retrieved_ids
    (Some (Some <$> ((fun counter => path_join d (jpeg_name counter)) <$> cs)))
  = pretty <$> cs.
Proof.
  unfold load_retrieved_ids. induction cs as [|n cs IH]; [reflexivity|].
  cbn [fmap list_fmap omap list_omap option_fmap option_map] in *.
  rewrite IH. f_equal.
  assert (Hname : string_forall not_sep (jpeg_name n) = true).
  { unfold jpeg_name. rewrite string_forall_app.
    rewrite (string_forall_impl is_digit not_sep (pretty n)).
    - reflexivity.
    - intros c Hc. now apply is_digit_cases.
    - apply pretty_nat_digits. }
  rewrite (basename_of_path_join d _ Hname). unfold jpeg_name.
  rewrite rstrip_app_stripped by reflexivity.
  apply rstrip_none_stripped.
  apply (string_forall_impl is_digit); [|apply pretty_nat_digits].
  intros c Hc. now apply is_digit_cases.
Qed.

(** X8. The id that the script recovers from the ledger line of a
    downloaded file is the decimal text of the counter in the name of the
    file: [rstrip(".jpeg")] of the [basename] of [<downdir>/<counter>.jpeg]
    is [str(counter)], for every directory. *)
Theorem ledger_id_is_the_counter (d : string) (cs : list nat) :
  load_retrieved_ids
    (Some (Some <$> ((fun counter => path_join d (jpeg_name counter)) <$> cs)))
  = pretty <$> cs.
Proof. apply load_retrieved_ids_jpeg_paths. Qed.

(** ** What a call of [fetch_url] leaves behind *)

Lemma write_body_opened path body fs :
  opened (write_body path body fs) ⊆ opened fs.
Proof.
  unfold write_body.
  destruct (write_chunks path body (fs_open path fs) "") as (_ & Ho & _).
  { cbn. apply lookup_insert_eq. }
  cbn [fs_close opened]. rewrite Ho. cbn. intros x Hx.
  apply elem_of_difference in Hx as [Hx Hn].
  apply elem_of_union in Hx as [Hx|Hx]; [contradiction|exact Hx].
Qed.

Lemma fetch_loop_opened (srv : server) uri path tries :
  forall fuel downloaded count timeout fs evs fs' ret,
    fetch_loop fuel srv uri path tries downloaded count timeout fs
    = Ok (evs, fs', ret) ->
    opened fs' ⊆ opened fs.
Proof.
  induction fuel as [|fuel IH];
    intros downloaded count timeout fs evs fs' ret H; cbn [fetch_loop] in H;
    [discriminate H|].
  destruct (negb downloaded && (count <? tries));
    [|injection H as _ <- _; reflexivity].
  destruct (srv count uri timeout) as [e|status_code body].
  - destruct (fetch_loop fuel srv uri path tries downloaded (count + 1)
                         (timeout * 2) fs) as [[[evs1 fs1] ret1]|e1] eqn:Hrec;
      cbn in H; [|discriminate H].
    injection H as _ <- _. eapply IH, Hrec.
  - destruct (status_code =? 200)%Z.
    + injection H as _ <- _. apply write_body_opened.
    + destruct (fetch_loop fuel srv uri path tries false (count + 1)
                           timeout fs) as [[[evs1 fs1] ret1]|e1] eqn:Hrec;
        cbn in H; [|discriminate H].
      injection H as _ <- _. eapply IH, Hrec.
Qed.

(** Everything that is used below about a call that returned. *)
Lemma fetch_url_inv gtimeout entropy (srv : server) fs uri path evs fs' ret :
  fetch_url gtimeout entropy srv fs (uri, path) = Ok (evs, fs', ret) ->
  (ret = None \/ ret = Some path)
  /\ Forall (eq uri) (locators_of evs)
  /\ timeouts_of evs !! 0 = Some gtimeout
  /\ 1 <= length (timeouts_of evs) <= 5
  /\ (forall k t,
        timeouts_of evs !! k = Some t ->
        exists j, j <= k /\ t = (gtimeout * 2 ^ Z.of_nat j)%Z)
  /\ (forall q, q <> path -> contents fs' !! q = contents fs !! q)
  /\ opened fs' ⊆ opened fs
  /\ (ret = Some path ->
      exists k t body,
        timeouts_of evs !! k = Some t
        /\ length (timeouts_of evs) = S k
        /\ srv k uri t = Response 200 body
        /\ contents fs' !! path = Some (joined body)).
Proof.
  intros H.
  destruct (fetch_url_spec gtimeout entropy srv fs uri path)
    as (evs0 & fs0 & ret0 & Hf & Hl).
  rewrite H in Hf. injection Hf as -> -> ->.
  destruct (fetch_url_backoff_bounds gtimeout entropy srv fs uri path)
    as (evs1 & fs1 & ret1 & Hf1 & Hhd & Hlen & Hpow & _).
  rewrite H in Hf1. injection Hf1 as <- _ _.
  change (timeouts_of (Sleep (jitter entropy) :: evs0))
    with (timeouts_of evs0) in *.
  change (locators_of (Sleep (jitter entropy) :: evs0))
    with (locators_of evs0).
  destruct (fetch_loop_spec srv uri path 5 6 0 gtimeout fs)
    as (evs2 & fs2 & ret2 & Hl2 & _ & _ & Hsome & _ & Hloc & _ & Hwin & Hstep);
    [lia|].
  rewrite Hl in Hl2. injection Hl2 as <- <- <-.
  split.
  { destruct ret0 as [p|]; [right; now rewrite (Hsome p)|now left]. }
  split; [exact Hloc|]. split; [exact Hhd|]. split; [exact Hlen|].
  split; [exact Hpow|]. split.
  { intros q Hq. eapply fetch_loop_frame; eassumption. }
  split; [eapply fetch_loop_opened; eassumption|].
  intros Hr. destruct (Hwin path Hr) as (k & t & body & Hk & Hsrv).
  exists k, t, body. cbn in Hsrv. split; [exact Hk|].
  specialize (Hstep k t Hk). cbn in Hstep. rewrite Hsrv in Hstep. cbn in Hstep.
  destruct Hstep as (Hlast & _ & ->).
  split; [exact Hlast|]. split; [exact Hsrv|]. apply write_body_spec.
Qed.

(** ** What a call of the downloader leaves behind *)

Lemma body_received_frame (srv : server) fs fs' c :
  contents fs' !! entry_path c = contents fs !! entry_path c ->
  body_received srv fs c -> body_received srv fs' c.
Proof.
  intros Hc Hb Hr. destruct (Hb Hr) as (k & t & body & H1 & H2 & H3 & H4).
  exists k, t, body. rewrite Hc. auto.
Qed.

Lemma Forall2_frame {A B} (P Q : A -> B -> Prop) (R : A -> Prop) l k :
  (forall x y, R x -> P x y -> Q x y) ->
  Forall R l -> Forall2 P l k -> Forall2 Q l k.
Proof.
  intros HPQ HR HP. revert HR.
  induction HP as [|x y l k Hxy _ IH]; intros HR; constructor.
  - apply HPQ; [now apply Forall_cons in HR as [? _]|exact Hxy].
  - apply IH. now apply Forall_cons in HR as [_ ?].
Qed.

Lemma executor_map_inv gtimeout entropy (net : nat -> server) thisArray :
  forall i fs calls fs',
    executor_map gtimeout entropy net i fs thisArray = Ok (calls, fs') ->
    (fun c => (entry_uri c, entry_path c)) <$> calls = thisArray
    /\ Forall call_ok calls
    /\ Forall (call_requests_ok gtimeout) calls
    /\ (forall q, q ∉ thisArray.*2 -> contents fs' !! q = contents fs !! q)
    /\ opened fs' ⊆ opened fs
    /\ (NoDup thisArray.*2 ->
        Forall2 (fun c srv => body_received srv fs' c) calls
                (net <$> seq i (length thisArray))).
Proof.
  induction thisArray as [|[uri path] thisArray IH]; intros i fs calls fs' H;
    cbn [executor_map] in H.
  - injection H as <- <-. repeat split; try constructor; auto.
  - destruct (fetch_url gtimeout (entropy i) (net i) fs (uri, path))
      as [[[evs fs1] ret]|e] eqn:Hf; cbn in H; [|discriminate H].
    destruct (executor_map gtimeout entropy net (S i) fs1 thisArray)
      as [[calls1 fs2]|e] eqn:He; cbn in H; [|discriminate H].
    injection H as <- <-.
    destruct (fetch_url_inv _ _ _ _ _ _ _ _ _ Hf)
      as (Hret & Hloc & Hhd & Hlen & Hpow & Hframe & Hopen & Hbody).
    destruct (IH _ _ _ _ He) as (Hmap & Hok & Hreq & Hframe1 & Hopen1 & Hbody1).
    cbn [fmap list_fmap fst snd]. repeat split.
    + cbn. f_equal. exact Hmap.
    + constructor; [|exact Hok]. split; [exact Hret|exact Hloc].
    + constructor; [|exact Hreq].
      split; [exact Hhd|]. split; [exact Hlen|exact Hpow].
    + intros q Hq. apply not_elem_of_cons in Hq as [Hq1 Hq2].
      rewrite Hframe1 by exact Hq2. apply Hframe, Hq1.
    + etransitivity; eassumption.
    + intros Hnd. apply NoDup_cons in Hnd as [Hnew Hnd].
      cbn [length seq fmap list_fmap]. constructor.
      * intros Hr. cbn in Hr.
        destruct (Hbody Hr) as (k & t & body & Hk & Hlast & Hsrv & Hc).
        exists k, t, body. cbn. split; [exact Hk|]. split; [exact Hlast|].
        split; [exact Hsrv|]. rewrite Hframe1 by exact Hnew. exact Hc.
      * apply Hbody1, Hnd.
Qed.

Lemma multiobject_download_inv entropy (net : nat -> server) fs urlList
    downloadDirectory filenames timeout d :
  multiobject_download entropy net fs urlList downloadDirectory filenames timeout
  = Ok d ->
  Forall call_ok (traffic d)
  /\ Forall (call_requests_ok (float_of_int timeout)) (traffic d)
  /\ (forall q, q ∉ entry_path <$> traffic d ->
                contents (files d) !! q = contents fs !! q)
  /\ opened (files d) ⊆ opened fs
  /\ (NoDup (entry_path <$> traffic d) ->
      Forall2 (fun c srv => body_received srv (files d) c) (traffic d)
              (batch_servers net (length (traffic d))))
  /\ localPaths d
     = (filter (fun o : string * string => Some o.2 ∈ returned <$> traffic d)
               ((fun c => (entry_uri c, entry_path c)) <$> traffic d)).*2.
Proof.
  unfold multiobject_download. intros H.
  destruct (pair_entries 0 urlList downloadDirectory filenames)
    as [thisArray|e] eqn:Hp; cbn in H; [|discriminate H].
  destruct (executor_map (float_of_int timeout) entropy net 0 fs thisArray)
    as [[calls fs']|e] eqn:He; cbn in H; [|discriminate H].
  rewrite progress_fold in H. injection H as <-.
  cbn [traffic files localPaths app].
  destruct (executor_map_inv _ _ _ _ _ _ _ _ He)
    as (Hmap & Hok & Hreq & Hframe & Hopen & Hbody).
  assert (Hpaths : thisArray.*2 = entry_path <$> calls).
  { rewrite <- Hmap, <- list_fmap_compose. reflexivity. }
  assert (Hlen : length thisArray = length calls).
  { rewrite <- Hmap. apply length_fmap. }
  unfold batch_servers. rewrite <- Hpaths, <- Hlen, Hmap.
  repeat split; assumption.
Qed.



(** X10. A call of the downloader that returns has changed no file but
    the destinations it built (the directory joined with the first file
    names), and it has left no file open that was not open before. *)
Theorem multiobject_download_writes_destinations_only entropy
    (net : nat -> server) fs urlList downloadDirectory filenames timeout :
  match multiobject_download entropy net fs urlList downloadDirectory
                             filenames timeout with
  | Ok d =>
      (forall q,
          q ∉ path_join downloadDirectory <$> take (length urlList) filenames ->
          contents (files d) !! q = contents fs !! q)
      /\ opened (files d) ⊆ opened fs
  | Raise e => e = IndexError
  end.
Proof.
  pose proof (multiobject_download_spec entropy net fs urlList
                downloadDirectory filenames timeout) as H.
  destruct (multiobject_download _ _ _ _ _ _ _) as [d|e] eqn:Hd; [|apply H].
  destruct H as (_ & _ & Hpath & _).
  destruct (multiobject_download_inv _ _ _ _ _ _ _ _ Hd)
    as (_ & _ & Hframe & Hopen & _).
  rewrite <- Hpath. split; assumption.
Qed.


Example float_of_int_rounds :
  float_of_int (2 ^ 53 + 1)%Z = (2 ^ 53)%Z
  /\ float_of_int (2 ^ 53 + 3)%Z = (2 ^ 53 + 4)%Z
  /\ float_of_int 180%Z = 180%Z.
Proof. repeat split. Qed.



(** X13. Also when two locators share a destination: the list that the
    downloader returns is a sub-list of the destinations in the order of
    submission (not of completion), and a path is in it exactly when some
    call returned it. *)
Theorem multiobject_download_local_paths entropy (net : nat -> server) fs
    urlList downloadDirectory filenames timeout :
  match multiobject_download entropy net fs urlList downloadDirectory
                             filenames timeout with
  | Ok d =>
      localPaths d `sublist_of` (entry_path <$> traffic d)
      /\ forall p,
           p ∈ localPaths d <-> exists c, c ∈ traffic d /\ returned c = Some p
  | Raise e => e = IndexError
  end.
Proof.
  pose proof (multiobject_download_spec entropy net fs urlList
                downloadDirectory filenames timeout) as H.
  destruct (multiobject_download _ _ _ _ _ _ _) as [d|e] eqn:Hd; [|apply H].
  clear H.
  destruct (multiobject_download_inv _ _ _ _ _ _ _ _ Hd)
    as (Hok & _ & _ & _ & _ & ->).
  split.
  - replace (entry_path <$> traffic d)
      with (((fun c => (entry_uri c, entry_path c)) <$> traffic d).*2)
      by (rewrite <- list_fmap_compose; reflexivity).
    apply fmap_sublist, sublist_filter.
  - intros p. rewrite Forall_forall in Hok. split.
    + intros Hp. apply list_elem_of_fmap in Hp as ([u q] & -> & Ho).
      apply list_elem_of_filter in Ho as [Hr _]. cbn in Hr.
      apply list_elem_of_fmap in Hr as (c & Hr & Hc). exists c. auto.
    + intros (c & Hc & Hr).
      destruct (Hok c Hc) as [[Hn|Hs] _]; [congruence|].
      assert (p = entry_path c) as -> by congruence.
      apply list_elem_of_fmap. exists (entry_uri c, entry_path c). split; [reflexivity|].
      apply list_elem_of_filter. split.
      * cbn. rewrite <- Hs. now apply list_elem_of_fmap_2.
      * apply (list_elem_of_fmap_2 (fun c => (entry_uri c, entry_path c))), Hc.
Qed.

(** ** What a run leaves behind *)

Section RunProperties.

Context {value : Type}.
Variable str : value -> string.
Variable get_SDSS_url : value -> value -> option string.

Lemma run_batch_inv downdir retrieved_ids entropy (net : nat -> server)
    st batch st' :
  run_batch str get_SDSS_url downdir retrieved_ids entropy net st batch = Ok st' ->
  exists calls,
    run_extends str get_SDSS_url downdir retrieved_ids st batch st' calls
                (seq (run_counter st) (length calls))
    /\ Forall (call_requests_ok 180) calls
    /\ (forall q, q ∉ entry_path <$> calls ->
                  contents (run_files st') !! q = contents (run_files st) !! q)
    /\ opened (run_files st') ⊆ opened (run_files st)
    /\ Forall2 (fun c srv => body_received srv (run_files st') c) calls
               (batch_servers net
                  (length (locators get_SDSS_url (pending str retrieved_ids batch)))).
Proof.
  intros H.
  destruct (run_batch_spec str get_SDSS_url downdir retrieved_ids entropy net
              st batch) as (st1 & calls & Heq & Hext).
  rewrite H in Heq. injection Heq as <-.
  exists calls. split; [exact Hext|].
  destruct Hext as (Ht & Hu & Hp & _).
  unfold run_batch in H.
  destruct (multiobject_download _ _ _ _ _ _ _) as [d|e] eqn:Hd;
    cbn in H; [|discriminate H].
  injection H as <-. cbn [run_traffic run_files] in *.
  apply app_inv_head in Ht. subst calls.
  destruct (multiobject_download_inv _ _ _ _ _ _ _ _ Hd)
    as (_ & Hreq & Hframe & Hopen & Hbody & _).
  repeat split; try assumption.
  rewrite <- Hu, length_fmap.
  apply Hbody. rewrite Hp. apply NoDup_jpeg_paths, NoDup_seq.
Qed.

Lemma run_batches_inv downdir retrieved_ids entropy
    (net : nat -> nat -> server) batches :
  forall b st st',
    run_batches str get_SDSS_url downdir retrieved_ids entropy net b st batches
    = Ok st' ->
    exists calls cs,
      run_extends str get_SDSS_url downdir retrieved_ids st (concat batches)
                  st' calls cs
      /\ Forall (call_requests_ok 180) calls
      /\ (forall q,
            (forall counter,
                run_counter st <= counter < run_counter st' ->
                q <> path_join downdir (jpeg_name counter)) ->
            contents (run_files st') !! q = contents (run_files st) !! q)
      /\ opened (run_files st') ⊆ opened (run_files st)
      /\ Forall2 (fun c srv => body_received srv (run_files st') c) calls
                 (run_servers str get_SDSS_url retrieved_ids net b batches).
Proof.
  induction batches as [|batch batches IH]; intros b st st' H;
    cbn [run_batches concat] in H.
  - injection H as <-. exists [], []. split; [apply run_extends_refl|].
    repeat split; try constructor; auto.
  - destruct (run_batch str get_SDSS_url downdir retrieved_ids (entropy b)
                        (net b) st batch) as [st1|e] eqn:Hb;
      cbn in H; [|discriminate H].
    destruct (run_batch_inv _ _ _ _ _ _ _ Hb)
      as (calls1 & Hext1 & Hreq1 & Hframe1 & Hopen1 & Hbody1).
    destruct (IH _ _ _ H) as (calls2 & cs2 & Hext2 & Hreq2 & Hframe2 & Hopen2 & Hbody2).
    exists (calls1 ++ calls2), (seq (run_counter st) (length calls1) ++ cs2).
    split; [eapply run_extends_trans; eassumption|].
    pose proof Hext1 as (_ & _ & Hp1 & _ & Hb1 & _ & _ & Hc1 & _).
    pose proof Hext2 as (_ & _ & _ & _ & _ & _ & _ & Hc2 & _).
    rewrite Forall_forall in Hb1.
    assert (Hframe1' : forall q,
               (forall counter,
                   run_counter st <= counter < run_counter st1 ->
                   q <> path_join downdir (jpeg_name counter)) ->
               contents (run_files st1) !! q = contents (run_files st) !! q).
    { intros q Hq. apply Hframe1. rewrite Hp1. intros Hin.
      apply list_elem_of_fmap in Hin as (counter & -> & Hin).
      apply (Hq counter); [apply Hb1, Hin|reflexivity]. }
    split; [apply Forall_app; split; assumption|]. split.
    { intros q Hq. rewrite Hframe2, Hframe1'; [reflexivity|..];
        intros counter Hc; apply Hq; lia. }
    split; [etransitivity; eassumption|].
    cbn [run_servers]. apply Forall2_app; [|exact Hbody2].
    apply (Forall2_frame
             (fun c srv => body_received srv (run_files st1) c) _
             (fun c => contents (run_files st') !! entry_path c
                       = contents (run_files st1) !! entry_path c));
      [intros c srv Hc; apply body_received_frame, Hc| |exact Hbody1].
    apply Forall_forall. intros c Hc.
    apply Hframe2. intros counter Hcounter Heq.
    assert (Hin : entry_path c ∈ entry_path <$> calls1)
      by now apply list_elem_of_fmap_2.
    rewrite Hp1 in Hin. apply list_elem_of_fmap in Hin as (k & Hk & Hin).
    rewrite Hk in Heq. apply jpeg_path_inj in Heq. subst k.
    specialize (Hb1 counter Hin). lia.
Qed.

Lemma main_inv args_o data read_csv entropy (net : nat -> nat -> server) fs st :
  main str get_SDSS_url args_o data read_csv entropy net fs = Ok st ->
  exists cs batches,
    chunks data 10 = Ok batches /\
    run_extends str get_SDSS_url (downdir args_o) (load_retrieved_ids read_csv)
                (Run 1 [] [] fs [] []) data st (run_traffic st) cs
    /\ Forall (call_requests_ok 180) (run_traffic st)
    /\ (forall q,
          (forall counter, q <> path_join (downdir args_o) (jpeg_name counter)) ->
          contents (run_files st) !! q = contents fs !! q)
    /\ opened (run_files st) ⊆ opened fs
    /\ Forall2 (fun c srv => body_received srv (run_files st) c) (run_traffic st)
               (run_servers str get_SDSS_url (load_retrieved_ids read_csv)
                            net 0 batches).
Proof.
  unfold main, downdir. intros H.
  destruct (chunks_spec data 10) as (batches & Hc & Hcat & _); [lia|].
  rewrite Hc, bind_ok in H.
  destruct (run_batches_inv _ _ _ _ _ _ _ _ H)
    as (calls & cs & Hext & Hreq & Hframe & Hopen & Hbody).
  rewrite Hcat in Hext. pose proof Hext as (Ht & _). cbn in Ht. subst calls.
  exists cs, batches. split; [exact Hc|].
  split; [exact Hext|]. split; [exact Hreq|].
  split; [|split; [exact Hopen|exact Hbody]].
  intros q Hq. apply Hframe. intros counter _. apply Hq.
Qed.

(** X14. Every path that a run appends to the ledger is, at the end of
    the run, a file that holds the whole body that its fetch received: the
    path is the destination of one call of the run, that call returned it,
    the call's own service (the one at the call's position in
    [run_servers]) answered the last request of the call with a 200, and
    the file holds the body of that answer. Later fetches of the run have
    not written over it. *)
Theorem ledger_files_hold_bodies args_o data read_csv entropy
    (net : nat -> nat -> server) fs :
  exists st batches,
    main str get_SDSS_url args_o data read_csv entropy net fs = Ok st
    /\ chunks data 10 = Ok batches
    /\ length (run_traffic st)
       = length (run_servers str get_SDSS_url (load_retrieved_ids read_csv)
                             net 0 batches)
    /\ Forall (fun p =>
                 exists i c srv k t body,
                   run_traffic st !! i = Some c
                   /\ run_servers str get_SDSS_url (load_retrieved_ids read_csv)
                                  net 0 batches !! i = Some srv
                   /\ entry_path c = p
                   /\ returned c = Some p
                   /\ timeouts_of (events c) !! k = Some t
                   /\ length (timeouts_of (events c)) = S k
                   /\ srv k (entry_uri c) t = Response 200 body
                   /\ contents (run_files st) !! p = Some (joined body))
              (run_ledger st).
Proof.
  destruct (main_spec str get_SDSS_url args_o data read_csv entropy net fs)
    as (st & cs0 & Hm & _).
  destruct (main_inv _ _ _ _ _ _ _ Hm)
    as (cs & batches & Hch & (_ & _ & _ & _ & _ & Hok & Hl & _)
        & _ & _ & _ & Hbody).
  exists st, batches. split; [exact Hm|]. split; [exact Hch|].
  split; [exact (Forall2_length _ _ _ Hbody)|].
  cbn [run_ledger app] in Hl. rewrite Hl.
  rewrite Forall_forall in Hok.
  apply Forall_forall. intros p Hp.
  apply list_elem_of_omap in Hp as (c & Hc & Hr).
  destruct (Hok c Hc) as [[Hn|Hs] _]; [congruence|].
  assert (p = entry_path c) as -> by congruence.
  apply list_elem_of_lookup in Hc as (i & Hi).
  destruct (Forall2_lookup_l _ _ _ _ _ Hbody Hi) as (srv & Hsrv & Hb).
  destruct (Hb Hs) as (k & t & body & H1 & H2 & H3 & H4).
  exists i, c, srv, k, t, body. auto 10.
Qed.

Lemma ends_with_sep_app (a b : string) :
  b <> "" -> ends_with_sep (a +:+ b) = ends_with_sep b.
Proof.
  intros Hb. induction a as [|c a IH]; [reflexivity|].
  change (String c a +:+ b) with (String c (a +:+ b)).
  destruct (a +:+ b) as [|x r] eqn:Hab.
  - destruct a; [|discriminate Hab]. now destruct Hb.
  - exact IH.
Qed.

Lemma path_join_inj_r (a b b' : string) :
  starts_with_sep b = false -> starts_with_sep b' = false ->
  path_join a b = path_join a b' -> b = b'.
Proof.
  unfold path_join. intros -> ->.
  destruct (String.eqb a "" || ends_with_sep a); intros H.
  - now apply String.app_inj in H.
  - apply String.app_inj in H. now apply String.app_inj in H.
Qed.

(** A destination, seen from the output directory. *)
Lemma destination_from_args_o (args_o : string) (counter : nat) :
  path_join (downdir args_o) (jpeg_name counter)
  = path_join args_o ("panstamps/" +:+ jpeg_name counter).
Proof.
  assert (Hne : forall x y, y <> "" -> String.eqb (x +:+ y) "" = false).
  { intros x y Hy. apply String.eqb_neq. intros Hx.
    apply (f_equal String.length) in Hx.
    rewrite string_length_app in Hx. destruct y; [now destruct Hy|].
    cbn in Hx. lia. }
  assert (H1 : starts_with_sep "panstamps" = false) by reflexivity.
  assert (H2 : starts_with_sep ("panstamps/" +:+ jpeg_name counter) = false)
    by reflexivity.
  assert (H3 : ends_with_sep "panstamps" = false) by reflexivity.
  assert (H4 : ends_with_sep ("/" +:+ "panstamps") = false) by reflexivity.
  unfold downdir, path_join.
  rewrite jpeg_name_no_sep, H1, H2.
  destruct (String.eqb args_o "" || ends_with_sep args_o).
  - rewrite Hne, ends_with_sep_app, H3 by discriminate. cbn [orb].
    rewrite string_app_assoc. reflexivity.
  - rewrite Hne, ends_with_sep_app, H4 by discriminate. cbn [orb].
    rewrite !string_app_assoc. reflexivity.
Qed.

Lemma destination_is_no_log (args_o : string) (counter : nat) :
  path_join (downdir args_o) (jpeg_name counter) <> download_list args_o
  /\ path_join (downdir args_o) (jpeg_name counter) <> url_notfound_file args_o.
Proof.
  rewrite destination_from_args_o. unfold download_list, url_notfound_file.
  split; intros H; apply path_join_inj_r in H; try reflexivity;
    discriminate H.
Qed.

(** X15. The destinations of a run are never the ledger
    [downloaded.csv] nor the failure log [urlnotfound.csv] of the output
    directory, whatever that directory is called. The fetches of a run
    change no file but their destinations [panstamps/<counter>.jpeg], and
    they leave no file open that was not open before. *)
Theorem main_writes_only_images args_o data read_csv entropy
    (net : nat -> nat -> server) fs :
  exists st,
    main str get_SDSS_url args_o data read_csv entropy net fs = Ok st
    /\ Forall (fun c =>
                 entry_path c <> download_list args_o
                 /\ entry_path c <> url_notfound_file args_o)
              (run_traffic st)
    /\ (forall q,
          (forall counter, q <> path_join (downdir args_o) (jpeg_name counter)) ->
          contents (run_files st) !! q = contents fs !! q)
    /\ opened (run_files st) ⊆ opened fs.
Proof.
  destruct (main_spec str get_SDSS_url args_o data read_csv entropy net fs)
    as (st & cs0 & Hm & _).
  exists st. split; [exact Hm|].
  destruct (main_inv _ _ _ _ _ _ _ Hm)
    as (cs & batches & _ & (_ & _ & Hp & _) & _ & Hframe & Hopen & _).
  split; [|split; assumption].
  apply Forall_forall. intros c Hc.
  assert (Hin : entry_path c ∈ entry_path <$> run_traffic st)
    by now apply list_elem_of_fmap_2.
  rewrite Hp in Hin. apply list_elem_of_fmap in Hin as (counter & -> & _).
  apply destination_is_no_log.
Qed.




(** X18. In a batch the k-th locator is stored under the k-th file name
    of the batch: the destinations are named after the consecutive
    counters from the first counter of the batch, one for each locator,
    while the counter itself advances by the number of rows that are not
    skipped. *)
Theorem run_batch_destinations downdir retrieved_ids entropy
    (net : nat -> server) st batch :
  exists st' calls,
    run_batch str get_SDSS_url downdir retrieved_ids entropy net st batch
    = Ok st'
    /\ run_traffic st' = run_traffic st ++ calls
    /\ entry_uri <$> calls
       = locators get_SDSS_url (pending str retrieved_ids batch)
    /\ entry_path <$> calls
       = (fun counter => path_join downdir (jpeg_name counter))
           <$> seq (run_counter st)
                   (length (locators get_SDSS_url
                              (pending str retrieved_ids batch)))
    /\ run_counter st'
       = run_counter st + length (pending str retrieved_ids batch).
Proof.
  destruct (run_batch_spec str get_SDSS_url downdir retrieved_ids entropy net
              st batch)
    as (st' & calls & Hb & (Ht & Hu & Hp & _ & _ & _ & _ & Hc & _)).
  exists st', calls. split; [exact Hb|]. split; [exact Ht|].
  split; [exact Hu|]. split; [|exact Hc].
  rewrite Hp, <- Hu, length_fmap. reflexivity.
Qed.

Lemma returned_paths_of_counters (f : nat -> string) :
  forall (calls : list call) (cs : list nat),
    entry_path <$> calls = f <$> cs ->
    Forall call_ok calls ->
    exists cs',
      omap returned calls = f <$> cs' /\ forall c, c ∈ cs' -> c ∈ cs.
Proof.
  induction calls as [|c calls IH]; intros cs Hp Hok.
  - exists []. split; [reflexivity|]. intros c Hc. inversion Hc.
  - destruct cs as [|n cs]; [discriminate Hp|].
    cbn in Hp. injection Hp as Hn Hp.
    apply Forall_cons in Hok as [[[Hr|Hr] _] Hok];
      destruct (IH cs Hp Hok) as (cs' & Hl & Hsub).
    + exists cs'. cbn. rewrite Hr. split; [exact Hl|].
      intros k Hk. right. now apply Hsub.
    + exists (n :: cs'). cbn. rewrite Hr, Hn, Hl. split; [reflexivity|].
      intros k Hk. apply elem_of_cons in Hk as [->|Hk]; [left|right; auto].
Qed.

(** X19. The ledger rows of a run are destinations
    [panstamps/<counter>.jpeg], and the ids that a later run recovers from
    them are the decimal texts of these counters: reading the ledger back,
    a row of a table counts as retrieved exactly when its [str(oid)] is the
    number of a downloaded file. *)
Theorem main_ledger_ids args_o data read_csv entropy
    (net : nat -> nat -> server) fs :
  exists st cs',
    main str get_SDSS_url args_o data read_csv entropy net fs = Ok st
    /\ run_ledger st
       = (fun counter => path_join (downdir args_o) (jpeg_name counter)) <$> cs'
    /\ Forall (fun counter => 1 <= counter < run_counter st) cs'
    /\ load_retrieved_ids (Some (Some <$> run_ledger st)) = pretty <$> cs'
    /\ (forall oid,
          str oid ∈ load_retrieved_ids (Some (Some <$> run_ledger st))
          <-> exists counter, counter ∈ cs' /\ str oid = pretty counter).
Proof.
  destruct (main_spec str get_SDSS_url args_o data read_csv entropy net fs)
    as (st & cs & Hm & (_ & _ & Hp & _ & Hb & Hok & Hl & _)).
  cbn [run_ledger app] in Hl.
  destruct (returned_paths_of_counters _ _ _ Hp Hok) as (cs' & Hr & Hsub).
  exists st, cs'. split; [exact Hm|].
  assert (Hledger : run_ledger st
            = (fun counter => path_join (downdir args_o) (jpeg_name counter))
                <$> cs') by (rewrite Hl; exact Hr).
  assert (Hids : load_retrieved_ids (Some (Some <$> run_ledger st))
                 = pretty <$> cs')
    by (rewrite Hledger; apply load_retrieved_ids_jpeg_paths).
  split; [exact Hledger|]. split.
  { rewrite Forall_forall in Hb. apply Forall_forall.
    intros c Hc. apply Hb, Hsub, Hc. }
  split; [exact Hids|].
  intros oid. rewrite Hids, list_elem_of_fmap. split.
  - intros (c & Ho & Hc). exists c. auto.
  - intros (c & Hc & Ho). exists c. auto.
Qed.

Lemma enqueue_rows_all_skipped retrieved_ids rows :
  Forall (fun row : value * value * value => str row.2 ∈ retrieved_ids) rows ->
  forall q,
    foldl (enqueue_row str get_SDSS_url retrieved_ids) q rows
    = Queue (counter q) (objids q) (allUrls q) (url_notfound q)
            (stdout q ++ replicate (length rows) PrintSkipped).
Proof.
  induction 1 as [|[[RA DEC] oid] rows Hrow _ IH]; intros q; cbn [foldl].
  - cbn. rewrite app_nil_r. now destruct q.
  - rewrite IH. unfold enqueue_row at 1 2 3 4 5.
    cbn [snd] in Hrow. rewrite bool_decide_eq_true_2 by exact Hrow.
    cbn [counter objids allUrls url_notfound stdout length replicate].
    rewrite <- app_assoc. reflexivity.
Qed.

Lemma run_batches_all_skipped downdir retrieved_ids entropy
    (net : nat -> nat -> server) batches :
  Forall (fun row : value * value * value => str row.2 ∈ retrieved_ids)
         (concat batches) ->
  forall b st,
    run_batches str get_SDSS_url downdir retrieved_ids entropy net b st batches
    = Ok (Run (run_counter st) (run_notfound st) (run_ledger st) (run_files st)
              (run_stdout st
                 ++ replicate (length (concat batches)) PrintSkipped)
              (run_traffic st)).
Proof.
  induction batches as [|batch batches IH]; intros Hall b st;
    cbn [run_batches concat].
  - cbn. rewrite app_nil_r. now destruct st.
  - cbn [concat] in Hall. apply Forall_app in Hall as [Hbatch Hrest].
    unfold run_batch, enqueue_batch.
    rewrite (enqueue_rows_all_skipped _ _ Hbatch).
    cbn [counter objids allUrls url_notfound stdout].
    change (multiobject_download (entropy b) (net b) (run_files st) [] downdir
              [] 180)
      with (Ok (Download [] [] (run_files st) [])).
    rewrite bind_ok. cbn [localPaths files progress traffic].
    rewrite bind_ok, (IH Hrest).
    cbn [run_counter run_notfound run_ledger run_files run_stdout run_traffic].
    rewrite !app_nil_r, length_app, replicate_add, app_assoc. reflexivity.
Qed.

(** X20. When every row of the table is in the ledger, the run is a
    no-op: it prints "skipped" once for each row and does nothing else - no
    request, no file written, nothing appended to the ledger or to the
    failure log, and the counter stays at 1. *)
Theorem main_all_rows_retrieved args_o data read_csv entropy
    (net : nat -> nat -> server) fs :
  Forall (fun row : value * value * value =>
            str row.2 ∈ load_retrieved_ids read_csv) data ->
  main str get_SDSS_url args_o data read_csv entropy net fs
  = Ok (Run 1 [] [] fs (replicate (length data) PrintSkipped) []).
Proof.
  intros Hall. unfold main.
  destruct (chunks_spec data 10) as (batches & -> & Hcat & _); [lia|].
  rewrite bind_ok. rewrite <- Hcat in Hall.
  rewrite (run_batches_all_skipped _ _ _ _ _ Hall). cbn. now rewrite Hcat.
Qed.

End RunProperties.

(** The ledger has the ids "1" and "2"; both rows of the table are
    skipped. *)
Lemma main_all_rows_retrieved_witness :
  Forall (fun row : string * string * string =>
            row.2 ∈ load_retrieved_ids
                      (Some [Some "images/panstamps/1.jpeg";
                             Some "images/panstamps/2.jpeg"]))
         [("10.5", "-1.25", "2"); ("11.5", "0.5", "1")]
  /\ main (fun s : string => s) sample_locator "images"
          [("10.5", "-1.25", "2"); ("11.5", "0.5", "1")]
          (Some [Some "images/panstamps/1.jpeg"; Some "images/panstamps/2.jpeg"])
          (fun _ _ => 0%Z) (fun _ _ => always_404) no_files
     = Ok (Run 1 [] [] no_files [PrintSkipped; PrintSkipped] []).
Proof.
  assert (H : Forall (fun row : string * string * string =>
                        row.2 ∈ load_retrieved_ids
                                  (Some [Some "images/panstamps/1.jpeg";
                                         Some "images/panstamps/2.jpeg"]))
                     [("10.5", "-1.25", "2"); ("11.5", "0.5", "1")]).
  { repeat constructor. }
  split; [exact H|].
  exact (main_all_rows_retrieved (fun s : string => s) sample_locator "images"
           [("10.5", "-1.25", "2"); ("11.5", "0.5", "1")]
           (Some [Some "images/panstamps/1.jpeg"; Some "images/panstamps/2.jpeg"])
           (fun _ _ => 0%Z) (fun _ _ => always_404) no_files H).
Defined.

(** Two locators with the same file name, the first fetch fails and the
    second succeeds: the path is returned twice, once for each entry. *)
Example shared_destination_is_listed_twice :
  exists d,
    multiobject_download (fun _ => 0%Z)
      (fun i => if i =? 0 then always_404 else busy_once) no_files
      ["http://a"; "http://b"] "images/panstamps" ["1.jpeg"; "1.jpeg"] 180
    = Ok d
    /\ returned <$> traffic d = [None; Some "images/panstamps/1.jpeg"]
    /\ localPaths d = ["images/panstamps/1.jpeg"; "images/panstamps/1.jpeg"]
    /\ contents (files d) !! "images/panstamps/1.jpeg" = Some "JFIF".
Proof. eexists. split; [vm_compute; reflexivity|]. repeat split. Qed.

(** * Failures after the answer *)

(** ** The first part is this one without such failures *)

Lemma fetch_loop_io_complete (srv : server) uri path tries :
  forall fuel downloaded count timeout fs,
    fetch_loop_io fuel always_opens (complete srv) uri path tries downloaded
                  count timeout fs
    = match fetch_loop fuel srv uri path tries downloaded count timeout fs with
      | Ok (evs, fs', ret) => Ok (evs, fs', Returned ret)
      | Raise e => Raise e
      end.
Proof.
  induction fuel as [|fuel IH]; intros downloaded count timeout fs;
    cbn [fetch_loop fetch_loop_io]; [reflexivity|].
  destruct (negb downloaded && (count <? tries)); [|reflexivity].
  unfold complete at 1.
  destruct (srv count uri timeout) as [e|status_code body].
  - rewrite IH.
    destruct (fetch_loop fuel srv uri path tries downloaded (count + 1)
                         (timeout * 2) fs) as [[[evs fs'] ret]|e'];
      reflexivity.
  - destruct (status_code =? 200)%Z; [reflexivity|]. rewrite IH.
    destruct (fetch_loop fuel srv uri path tries false (count + 1) timeout fs)
      as [[[evs fs'] ret]|e']; reflexivity.
Qed.

Lemma fetch_url_io_complete gtimeout entropy (srv : server) fs entry :
  fetch_url_io gtimeout entropy always_opens (complete srv) fs entry
  = match fetch_url gtimeout entropy srv fs entry with
    | Ok (evs, fs', ret) => Ok (evs, fs', Returned ret)
    | Raise e => Raise e
    end.
Proof.
  destruct entry as [uri path]. unfold fetch_url_io, fetch_url.
  rewrite fetch_loop_io_complete.
  destruct (fetch_loop 6 srv uri path 5 false 0 gtimeout fs)
    as [[[evs fs'] ret]|e]; reflexivity.
Qed.

Lemma executor_map_io_complete gtimeout entropy (net : nat -> server) thisArray :
  forall i fs,
    executor_map_io gtimeout entropy always_opens (fun i => complete (net i))
                    i fs thisArray
    = match executor_map gtimeout entropy net i fs thisArray with
      | Ok (calls, fs') => Ok (io_of_call <$> calls, fs')
      | Raise e => Raise e
      end.
Proof.
  induction thisArray as [|entry thisArray IH]; intros i fs;
    cbn [executor_map executor_map_io]; [reflexivity|].
  rewrite fetch_url_io_complete.
  destruct (fetch_url gtimeout (entropy i) (net i) fs entry)
    as [[[evs fs1] ret]|e]; [|reflexivity].
  rewrite !bind_ok. cbn beta iota. rewrite IH.
  destruct (executor_map gtimeout entropy net (S i) fs1 thisArray)
    as [[calls fs2]|e]; reflexivity.
Qed.

Lemma collect_results_returned totalCount (results : list (option string)) :
  forall st,
    collect_results totalCount st (Returned <$> results)
    = (foldl (progress_step totalCount) st results, None).
Proof.
  induction results as [|path results IH]; intros st; [reflexivity|].
  cbn [fmap list_fmap collect_results foldl]. apply IH.
Qed.

Lemma multiobject_download_io_complete entropy (net : nat -> server) fs urlList
    downloadDirectory filenames timeout :
  multiobject_download_io entropy always_opens (fun i => complete (net i)) fs
                          urlList downloadDirectory filenames timeout
  = match multiobject_download entropy net fs urlList downloadDirectory
                               filenames timeout with
    | Ok d => Ok (io_of_download d)
    | Raise e => Raise e
    end.
Proof.
  unfold multiobject_download_io, multiobject_download.
  destruct (pair_entries 0 urlList downloadDirectory filenames)
    as [thisArray|e]; [|reflexivity].
  rewrite !bind_ok, executor_map_io_complete.
  destruct (executor_map (float_of_int timeout) entropy net 0 fs thisArray)
    as [[calls fs']|e]; [|reflexivity].
  rewrite !bind_ok. cbn beta iota.
  replace (map io_ended (io_of_call <$> calls))
    with (Returned <$> map returned calls).
  2:{ clear. induction calls as [|c calls IH]; [reflexivity|].
      cbn. f_equal. exact IH. }
  rewrite collect_results_returned.
  destruct (foldl (progress_step (length urlList)) ([], []) (map returned calls))
    as [returnPaths out].
  reflexivity.
Qed.

Section MainIoProperties.

Context {value : Type}.
Variable str : value -> string.
Variable get_SDSS_url : value -> value -> option string.

Lemma run_batch_io_complete downdir retrieved_ids entropy (net : nat -> server)
    st batch :
  run_batch_io str get_SDSS_url downdir retrieved_ids entropy always_opens
               (fun i => complete (net i)) (io_of_run st) batch
  = match run_batch str get_SDSS_url downdir retrieved_ids entropy net st batch with
    | Ok st' => Ok (io_of_run st')
    | Raise e => Raise e
    end.
Proof.
  unfold run_batch_io, run_batch, enqueue_batch.
  cbn [io_of_run io_run_counter io_run_notfound io_run_stdout io_run_files
       io_run_ledger io_run_traffic].
  rewrite multiobject_download_io_complete.
  destruct (multiobject_download _ _ _ _ _ _ _) as [d|e]; [|reflexivity].
  rewrite !bind_ok. cbn [io_of_download io_localPaths io_files io_progress
                         io_traffic].
  unfold io_of_run. cbn [run_counter run_notfound run_ledger run_files
                         run_stdout run_traffic].
  rewrite fmap_app. reflexivity.
Qed.

Lemma run_batches_io_complete downdir retrieved_ids entropy
    (net : nat -> nat -> server) batches :
  forall b st,
    run_batches_io str get_SDSS_url downdir retrieved_ids entropy always_opens
                   (fun b i => complete (net b i)) b (io_of_run st) batches
    = match run_batches str get_SDSS_url downdir retrieved_ids entropy net b
                        st batches with
      | Ok st' => Ok (io_of_run st')
      | Raise e => Raise e
      end.
Proof.
  induction batches as [|batch batches IH]; intros b st;
    cbn [run_batches run_batches_io]; [reflexivity|].
  rewrite run_batch_io_complete.
  destruct (run_batch str get_SDSS_url downdir retrieved_ids (entropy b)
                      (net b) st batch) as [st'|e]; [|reflexivity].
  rewrite !bind_ok. cbn [io_of_run io_run_thrown]. apply IH.
Qed.

(** Where every file opens and every body is read to its end, the run
    with exceptions is the run of the first part, and no exception ends
    it. *)
Lemma main_io_complete args_o data read_csv entropy
    (net : nat -> nat -> server) fs :
  main_io str get_SDSS_url args_o data read_csv entropy always_opens
          (fun b i => complete (net b i)) fs
  = match main str get_SDSS_url args_o data read_csv entropy net fs with
    | Ok st => Ok (io_of_run st)
    | Raise e => Raise e
    end.
Proof.
  unfold main_io, main.
  destruct (chunks data 10) as [batches|e]; [|reflexivity].
  rewrite !bind_ok.
  apply (run_batches_io_complete _ _ _ _ batches 0 (Run 1 [] [] fs [] [])).
Qed.

End MainIoProperties.

(** ** One fetch *)

(** A fetch whose first request is answered by a 200: no further request
    is made. When the file cannot be opened, or when the body breaks off,
    the exception leaves the fetch; the file that was opened is closed and
    holds the chunks that came. *)
Lemma fetch_url_io_first_200 gtimeout entropy open_error (srv : io_server)
    fs uri path body broken :
  srv 0 uri gtimeout = IoResponse 200 body broken ->
  fetch_url_io gtimeout entropy open_error srv fs (uri, path)
  = Ok (match open_error path with
        | Some e => ([Sleep (jitter entropy); Get uri gtimeout], fs, Thrown e)
        | None =>
            ([Sleep (jitter entropy); Get uri gtimeout],
             write_body path body fs,
             match broken with
             | Some e => Thrown e
             | None => Returned (Some path)
             end)
        end).
Proof.
  intros Hsrv. unfold fetch_url_io. cbn [fetch_loop_io negb andb Nat.ltb Nat.leb].
  rewrite Hsrv. cbn [Z.eqb Pos.eqb].
  destruct (open_error path) as [e|]; [reflexivity|].
  destruct broken as [e|]; reflexivity.
Qed.


(** ** A run *)

(** C4. Twelve rows in batches of 10 and 2, every request answered by a
    200 at once; the body of the third item breaks off. Its exception is
    raised again where the downloader collects the results, after two
    progress lines, and ends the run: the nine other items of the first
    batch were fetched and are on disk, but the ledger has no row; the two
    rows of the second batch are never fetched. *)
Theorem broken_body_aborts_the_run :
  exists st,
    main_io (fun s : string => s) sample_locator "images" twelve_rows None
            (fun _ _ => 0%Z) always_opens third_is_cut_off no_files = Ok st
    /\ io_run_thrown st = Some "Connection broken: IncompleteRead"
    /\ io_run_ledger st = []
    /\ io_returned_paths (io_run_traffic st)
       = (fun counter => path_join "images/panstamps" (jpeg_name counter))
           <$> [1; 2; 4; 5; 6; 7; 8; 9; 10]
    /\ Forall (fun p => contents (io_run_files st) !! p = Some "JFIF")
              (io_returned_paths (io_run_traffic st))
    /\ contents (io_run_files st) !! "images/panstamps/3.jpeg" = Some "JF"
    /\ length (io_run_traffic st) = 10
    /\ length (locators sample_locator twelve_rows) = 12
    /\ io_run_stdout st = progress_lines 10 2.
Proof.
  eexists. split; [vm_compute; reflexivity|].
  repeat split. vm_compute. repeat constructor.
Qed.

(** * Running twice *)

(** C1. The ledger holds the destinations, which are named after the
    counter, and the counter starts at 1 in every run: the ids read back
    from the ledger are counters, not object ids. A first run over two
    objects fetches both and writes [1.jpeg] and [2.jpeg] to the ledger.
    The second run over the same table, with that ledger and those files,
    recovers the ids "1" and "2", skips no row, requests both locators
    again and appends the same two rows to the ledger. *)
Theorem rerun_fetches_ledgered_items :
  exists st1 st2,
    main (fun s : string => s) sample_locator "images" two_objects None
         (fun _ _ => 0%Z) (fun _ _ => busy_once) no_files = Ok st1
    /\ run_ledger st1 = ["images/panstamps/1.jpeg"; "images/panstamps/2.jpeg"]
    /\ load_retrieved_ids (read_back (run_ledger st1)) = ["1"; "2"]
    /\ main (fun s : string => s) sample_locator "images" two_objects
            (read_back (run_ledger st1))
            (fun _ _ => 0%Z) (fun _ _ => busy_once) (run_files st1) = Ok st2
    /\ pending (fun s : string => s)
               (load_retrieved_ids (read_back (run_ledger st1))) two_objects
       = two_objects
    /\ entry_uri <$> run_traffic st2
       = [SDSS_url_text "10.5" "-1.25"; SDSS_url_text "11.5" "0.5"]
    /\ entry_uri <$> run_traffic st2 = entry_uri <$> run_traffic st1
    /\ request_count (run_traffic st2) = 4
    /\ run_stdout st2 = progress_lines 2 2
    /\ run_ledger st2 = run_ledger st1.
Proof.
  eexists _, _. split; [vm_compute; reflexivity|].
  split; [reflexivity|]. split; [reflexivity|].
  split; [vm_compute; reflexivity|].
  repeat split.
Qed.
